(** * concurrent_file_processing: word counting over a worker pool

    A shallow embedding of [main.go]: the data types [Job], [Result] and
    [FileProcessor], the line scanner [CountWord], the configuration loader
    [LoadConfig], and the goroutines of [ProcessFiles] and [Worker] as a
    labelled transition system over channels, a wait group and a context. *)

From Stdlib Require Import ZArith Ascii String.
From stdpp Require Import base decidable option list.
From Stdlib Require Import Lia.

Local Open Scope Z_scope.

(** ** Go values *)

(** Go's [int] on a 64-bit platform: results of [+] wrap around. *)
Definition int_min : Z := - 2 ^ 63.
Definition int_max : Z := 2 ^ 63 - 1.
Definition wrap_int (z : Z) : Z := (z + 2 ^ 63) mod 2 ^ 64 - 2 ^ 63.
Definition int_add (a b : Z) : Z := wrap_int (a + b).

(** The [error] values that reach a [Result]: what [os.Open] and the file
    reads under [bufio.Scanner] return, the scanner's own [ErrTooLong], and
    the two errors of package [context]. *)
Inductive error : Type :=
  | PathError (op path msg : string)
  | ErrTooLong
  | Canceled
  | DeadlineExceeded.

Definition is_ctx_err (e : error) : bool :=
  match e with
  | Canceled | DeadlineExceeded => true
  | _ => false
  end.

(** ** Package [strings] and [unicode/utf8], as far as [CountWord] and
    [LoadConfig] call them.  A Go string is a sequence of bytes; so is a
    [string] here. *)
Module strings.

Definition byte_of (c : ascii) : Z := Z.of_N (N_of_ascii c).

(** [len(s)] *)
Definition len (s : string) : Z := Z.of_nat (String.length s).

(** [s[n:]] *)
Fixpoint drop (n : nat) (s : string) : string :=
  match n, s with
  | O, _ => s
  | S _, EmptyString => EmptyString
  | S k, String _ s' => drop k s'
  end.

(** [s[i]] as a byte value, [None] out of range. *)
Definition at_ (s : string) (i : nat) : option Z :=
  byte_of <$> String.get i s.

(** [strings.HasPrefix(s, prefix)] *)
Fixpoint HasPrefix (s prefix : string) {struct prefix} : bool :=
  match prefix, s with
  | EmptyString, _ => true
  | String _ _, EmptyString => false
  | String c p, String d s' => if Ascii.eqb c d then HasPrefix s' p else false
  end.

(** [strings.Index(s, substr)]: the byte index of the first instance of
    [substr] in [s]; Go's [-1] is [None]. *)
Fixpoint Index (s substr : string) : option nat :=
  if HasPrefix s substr then Some O
  else match s with
       | EmptyString => None
       | String _ s' => S <$> Index s' substr
       end.

(** [bytealg.CountString(s, c)]: the number of bytes of [s] equal to [c]. *)
Fixpoint CountString (s : string) (c : ascii) : Z :=
  match s with
  | EmptyString => 0
  | String d s' => (if Ascii.eqb d c then 1 else 0) + CountString s' c
  end.

(** The table [first] of [unicode/utf8], by ranges of the leading byte:
    the low three bits are the length of the encoding, the high four
    bits index [acceptRanges]; [0xF1] marks an invalid leading byte. *)
Definition xx : Z := 241.
Definition first (c : Z) : Z :=
  if c <? 128 then 240            (* as: ASCII *)
  else if c <? 194 then xx        (* 0x80..0xC1 *)
  else if c <? 224 then 2         (* s1: 0xC2..0xDF *)
  else if c =? 224 then 19        (* s2: 0xE0 *)
  else if c <? 237 then 3         (* s3: 0xE1..0xEC *)
  else if c =? 237 then 35        (* s4: 0xED *)
  else if c <? 240 then 3         (* s3: 0xEE..0xEF *)
  else if c =? 240 then 52        (* s5: 0xF0 *)
  else if c <? 244 then 4         (* s6: 0xF1..0xF3 *)
  else if c =? 244 then 68        (* s7: 0xF4 *)
  else xx.                        (* 0xF5..0xFF *)

Definition locb : Z := 128.
Definition hicb : Z := 191.

(** [acceptRanges[k]] as the pair (lo, hi) for the second byte. *)
Definition acceptRanges (k : Z) : Z * Z :=
  if k =? 0 then (locb, hicb)
  else if k =? 1 then (160, hicb)
  else if k =? 2 then (locb, 159)
  else if k =? 3 then (144, hicb)
  else if k =? 4 then (locb, 143)
  else (0, 0).

Definition outside (lo hi : Z) (b : option Z) : bool :=
  match b with
  | Some c => (c <? lo) || (hi <? c)
  | None => true
  end.

(** One turn of the loop of [utf8.RuneCountInString]: the number of bytes
    the rune starting with byte [c] takes, [rest] being the bytes after
    it.  An invalid or short encoding takes one byte. *)
Definition rune_size (c : ascii) (rest : string) : nat :=
  let b := byte_of c in
  if b <? 128 then 1%nat
  else
    let x := first b in
    if x =? xx then 1%nat
    else
      let size := Z.to_nat (Z.land x 7) in
      if (S (String.length rest) <? size)%nat then 1%nat
      else
        let '(lo, hi) := acceptRanges (Z.shiftr x 4) in
        if outside lo hi (at_ rest 0) then 1%nat
        else if (size =? 2)%nat then size
        else if outside locb hicb (at_ rest 1) then 1%nat
        else if (size =? 3)%nat then size
        else if outside locb hicb (at_ rest 2) then 1%nat
        else size.

(** The loop of [utf8.RuneCountInString]; [skip] is the number of bytes
    still belonging to the rune counted last. *)
Fixpoint rune_count_from (skip : nat) (s : string) : Z :=
  match s with
  | EmptyString => 0
  | String c s' =>
      match skip with
      | S k => rune_count_from k s'
      | O => 1 + rune_count_from (Nat.pred (rune_size c s')) s'
      end
  end.

Definition RuneCountInString (s : string) : Z := rune_count_from 0 s.

(** The general loop of [strings.Count]:
    [for { i := Index(s, substr); if i == -1 { return n }; n++;
           s = s[i+len(substr):] }].
    Every turn removes at least one byte when [substr] is not empty, so
    [String.length s + 1] turns are enough ([count_loop_fuel]). *)
Fixpoint count_loop (fuel : nat) (s substr : string) (n : Z) : Z :=
  match fuel with
  | O => n
  | S fuel' =>
      match Index s substr with
      | None => n
      | Some i => count_loop fuel' (drop (i + String.length substr) s) substr (n + 1)
      end
  end.

(** [strings.Count(s, substr)]: the number of non-overlapping instances
    of [substr] in [s]; for an empty [substr], one more than the number
    of code points of [s]. *)
Definition Count (s substr : string) : Z :=
  match substr with
  | EmptyString => RuneCountInString s + 1
  | String c EmptyString => CountString s c
  | _ => count_loop (S (String.length s)) s substr 0
  end.

(** [strings.Split(s, sep)] for a one-byte separator: the pieces of [s]
    between the separators, never an empty list. *)
Fixpoint split_byte (sep : ascii) (s : string) (cur : string) : list string :=
  match s with
  | EmptyString => [cur]
  | String c s' =>
      if Ascii.eqb c sep then cur :: split_byte sep s' EmptyString
      else split_byte sep s' (cur ++ String c EmptyString)
  end.

Definition Split_comma (s : string) : list string :=
  split_byte ","%char s EmptyString.

End strings.

(** The spec's words, for a word that is not empty: [ps] lists
    non-overlapping occurrences of [sub] in [s] from left to right, the
    first at offset [p] of [s], each next one at its offset in what
    follows the occurrence before it. *)
Inductive Occurrences (sub : string) : string -> list nat -> Prop :=
  | Occurrences_nil s : Occurrences sub s []
  | Occurrences_cons s p ps :
      strings.HasPrefix (strings.drop p s) sub = true ->
      Occurrences sub (strings.drop (p + String.length sub) s) ps ->
      Occurrences sub s (p :: ps).

(** [n] is the number of non-overlapping occurrences of [sub] in [s]: some
    list of them has [n] members and none has more. *)
Definition occurrence_count (s sub : string) (n : Z) : Prop :=
  (exists ps, Occurrences sub s ps /\ Z.of_nat (length ps) = n)
  /\ (forall ps, Occurrences sub s ps -> Z.of_nat (length ps) <= n).

(** ** The data model of [main.go] *)

Record Job : Type := mkJob { FilePath : string; Word : string }.

Record Result : Type := mkResult {
  rFilePath : string;
  WordCount : Z;
  Error : option error   (* [None] is Go's [nil] *)
}.

(** [Result{FilePath: p, Error: e}]: the count field keeps its zero value. *)
Definition error_result (p : string) (e : error) : Result :=
  mkResult p 0 (Some e).

(** [Result{FilePath: p, WordCount: n}]: the error field stays [nil]. *)
Definition count_result (p : string) (n : Z) : Result :=
  mkResult p n None.

(** [FileProcessor] without its channel, which lives in the state of the
    run ([Pipeline.State]). *)
Record FileProcessor : Type := mkFileProcessor {
  Files : list string;
  fpWord : string;
  WorkerCount : Z
}.

Definition NewFileProcessor (files : list string) (word : string)
    (workerCount : Z) : FileProcessor :=
  mkFileProcessor files word workerCount.

(** ** The file system as [CountWord] sees it *)

(** How a scan ends: [scanner.Scan()] returns false and [scanner.Err()] is
    [nil] (end of file) or the error that stopped it. *)
Inductive ScanEnd : Type :=
  | AtEOF
  | ReadError (e : error).

(** An opened file under a [bufio.Scanner]: the lines [scanner.Text()]
    delivers while [scanner.Scan()] is true, then the way the scan ends. *)
Record File : Type := mkFile { file_lines : list string; file_end : ScanEnd }.

(** [os.Open(path)] *)
Inductive OpenResult : Type :=
  | OpenErr (e : error)
  | OpenOk (f : File).

Definition FileSystem : Type := string -> OpenResult.

(** ** The context as one call of [CountWord] sees it *)

(** [ctx_open = Some n]: the first [n] polls of [ctx.Done()] find the
    channel open, every later one finds it closed and [ctx.Err()] is
    [ctx_error]; [ctx_open = None]: the context is never cancelled. *)
Record Context : Type := mkContext { ctx_open : option nat; ctx_error : error }.

Definition Background : Context := mkContext None Canceled.
Definition cancelled_after (n : nat) : Context := mkContext (Some n) Canceled.

(** What a poll finds: [Some e] when [<-ctx.Done()] is ready. *)
Definition poll (ctx : Context) : option error :=
  match ctx_open ctx with
  | Some O => Some (ctx_error ctx)
  | _ => None
  end.

(** The context one poll later. *)
Definition tick (ctx : Context) : Context :=
  match ctx_open ctx with
  | Some (S n) => mkContext (Some n) (ctx_error ctx)
  | _ => ctx
  end.

(** ** [CountWord] *)

(** The body of [for scanner.Scan() { select { ... } }] for one line:
    either the function returns, or the loop goes on with a new count. *)
Inductive LoopStep : Type :=
  | Return (r : Result)
  | Continue (wordCount : Z).

Definition scan_body (done : option error) (job : Job) (line : string)
    (wordCount : Z) : LoopStep :=
  match done with
  | Some err => Return (error_result (FilePath job) err)
  | None => Continue (int_add wordCount (strings.Count line (Word job)))
  end.

(** After the loop: [if err := scanner.Err(); err != nil { ... }] and the
    final [return]. *)
Definition scan_exit (job : Job) (e : ScanEnd) (wordCount : Z) : Result :=
  match e with
  | ReadError err => error_result (FilePath job) err
  | AtEOF => count_result (FilePath job) wordCount
  end.

Fixpoint scan_loop (ctx : Context) (job : Job) (lines : list string)
    (e : ScanEnd) (wordCount : Z) : Result :=
  match lines with
  | [] => scan_exit job e wordCount
  | line :: rest =>
      match scan_body (poll ctx) job line wordCount with
      | Return r => r
      | Continue wordCount' => scan_loop (tick ctx) job rest e wordCount'
      end
  end.

Definition CountWord (fs : FileSystem) (ctx : Context) (job : Job) : Result :=
  match fs (FilePath job) with
  | OpenErr err => error_result (FilePath job) err
  | OpenOk f => scan_loop ctx job (file_lines f) (file_end f) 0
  end.

(** ** [LoadConfig] and the start of [main] *)
Module Config.

(** The value viper finds under the key [files]: a YAML sequence, or a
    string (a YAML scalar, or the environment variable [APP_FILES]). *)
Inductive FilesValue : Type :=
  | FilesList (l : list string)
  | FilesString (s : string).

(** The configuration sources after [viper.ReadInConfig()]: the text of
    its error ([None] for [nil]), and for each key the value found in the
    environment or, failing that, in [config.yaml]; [None] when neither
    sets the key (always so for the file when it could not be read).
    [workerCount] is the value as [viper.GetInt] casts it. *)
Record Viper : Type := mkViper {
  ReadInConfig : option string;
  found_files : option FilesValue;
  found_word : option string;
  found_workerCount : option Z
}.

(** [viper.Get(key)] once [viper.SetDefault(key, d)] has run. *)
Definition get {A : Type} (found : option A) (d : A) : A :=
  match found with
  | Some v => v
  | None => d
  end.

Definition is_space (c : ascii) : bool :=
  let b := strings.byte_of c in
  ((9 <=? b) && (b <=? 13)) || (b =? 32).

(** [strings.Fields] on ASCII white space; [LoadConfig] keeps its
    result only for the empty string ([GetString] below). *)
Fixpoint fields (s : string) (cur : string) : list string :=
  match s with
  | EmptyString => match cur with EmptyString => [] | _ => [cur] end
  | String c s' =>
      if is_space c
      then match cur with
           | EmptyString => fields s' EmptyString
           | _ => cur :: fields s' EmptyString
           end
      else fields s' (cur ++ String c EmptyString)
  end.

(** [viper.GetStringSlice("files")] *)
Definition GetStringSlice (v : FilesValue) : list string :=
  match v with
  | FilesList l => l
  | FilesString s => fields s EmptyString
  end.

(** [viper.GetString("files")]: a sequence does not cast to a string. *)
Definition GetString (v : FilesValue) : string :=
  match v with
  | FilesList _ => EmptyString
  | FilesString s => s
  end.

(** What [LoadConfig] prints. *)
Inductive Output : Type :=
  | PrintReadError (err : string)
  | PrintFiles (files : list string)
  | PrintWord (word : string)
  | PrintWorker (workerCount : Z).

Definition default_files : list string := ["./sample1.txt"%string].
Definition default_word : string := "go".
Definition default_workerCount : Z := 1.

(** [LoadConfig], returning what it prints, the processor and the error. *)
Definition LoadConfig (v : Viper)
    : list Output * FileProcessor * option error :=
  let out1 :=
    match ReadInConfig v with
    | Some err => [PrintReadError err]
    | None => []
    end in
  let filesv := get (found_files v) (FilesList default_files) in
  let files := GetStringSlice filesv in
  let word := get (found_word v) default_word in
  let workerCount := get (found_workerCount v) default_workerCount in
  let envfiles := GetString filesv in
  let files :=
    if String.eqb envfiles EmptyString then files
    else strings.Split_comma envfiles in
  let out := out1 ++ [PrintFiles files; PrintWord word; PrintWorker workerCount] in
  let fp := NewFileProcessor files word workerCount in
  (out, fp, None).

(** The first statements of [main]: either the configuration-failure
    branch ([return] before any processing) or [fp.ProcessFiles(ctx)]. *)
Inductive MainStart : Type :=
  | ConfigFailed (err : error)
  | Process (fp : FileProcessor).

Definition main_start (v : Viper) : MainStart :=
  match LoadConfig v with
  | (_, _, Some err) => ConfigFailed err
  | (_, fp, None) => Process fp
  end.

End Config.

(** ** [ProcessFiles] and [Worker]: the goroutines of one run *)
Module Pipeline.

(** A buffered channel: [make(chan A, cap)].  With [cap = 0] Go makes an
    unbuffered channel; here no send gets through one, and no run sends on
    one: a send needs a file, and then both capacities are at least 1. *)
Record Chan (A : Type) : Type := mkChan {
  buf : list A;
  cap : nat;
  closed : bool
}.
Arguments mkChan {A} _ _ _.
Arguments buf {A} _.
Arguments cap {A} _.
Arguments closed {A} _.

Definition make {A : Type} (n : nat) : Chan A := mkChan [] n false.

(** [close(c)]: it panics on a closed channel ([None]). *)
Definition close {A : Type} (c : Chan A) : option (Chan A) :=
  if closed c then None else Some (mkChan (buf c) (cap c) true).

(** [wg.Done()] on the counter [g]: it panics when the counter would go
    below zero ([None]). *)
Definition wg_done (g : Z) : option Z :=
  if g - 1 <? 0 then None else Some (g - 1).

(** A send [c <- x]: it panics on a closed channel, blocks on a full
    buffer, and otherwise appends to the buffer. *)
Inductive SendResult (A : Type) : Type :=
  | SendPanic
  | SendBlocks
  | Sent (c : Chan A).
Arguments SendPanic {A}.
Arguments SendBlocks {A}.
Arguments Sent {A} _.

Definition send {A : Type} (c : Chan A) (x : A) : SendResult A :=
  if closed c then SendPanic
  else if (length (buf c) <? cap c)%nat then Sent (mkChan (buf c ++ [x]) (cap c) false)
  else SendBlocks.

(** A receive [x, ok := <-c]: the oldest buffered value with [ok] true;
    on an empty buffer, [ok] false if the channel is closed, and no
    progress otherwise. *)
Inductive RecvResult (A : Type) : Type :=
  | Received (x : A) (c : Chan A)
  | RecvClosed
  | RecvBlocks.
Arguments Received {A} _ _.
Arguments RecvClosed {A}.
Arguments RecvBlocks {A}.

Definition recv {A : Type} (c : Chan A) : RecvResult A :=
  match buf c with
  | x :: rest => Received x (mkChan rest (cap c) (closed c))
  | [] => if closed c then RecvClosed else RecvBlocks
  end.

(** Where the goroutine that runs [ProcessFiles] stands. *)
Inductive Dispatcher : Type :=
  | DSpawn (i : Z)               (* at the test [i < fp.WorkerCount] *)
  | DFeed (rest : list string)   (* in the range loop, [rest] still to send *)
  | DWait                        (* at [wg.Wait()] *)
  | DCloseResults                (* at [close(fp.Results)] *)
  | DReturn.                     (* [ProcessFiles] has returned *)

(** Where a [Worker] goroutine stands. *)
Inductive Worker : Type :=
  | WSelect                      (* at the [select] of the loop *)
  | WScan (job : Job) (rest : list string) (e : ScanEnd) (wordCount : Z)
                                 (* in [CountWord], at [scanner.Scan()] *)
  | WSend (r : Result)           (* at [fp.Results <- result] *)
  | WDone.                       (* returned, [wg.Done()] has run *)

Record State : Type := mkState {
  jobs : Chan Job;
  results : Chan Result;         (* [fp.Results] *)
  wg : Z;                        (* the counter of the [sync.WaitGroup] *)
  ctx : option error;            (* [Some e]: [ctx.Done()] is closed and [ctx.Err()] is [e] *)
  main : Dispatcher;
  workers : list Worker;
  panicked : bool
}.

(** What a step does, as seen from outside. *)
Inductive Event : Type :=
  | ESpawn (w : nat)
  | ESpawned                      (* the spawning loop ends *)
  | EEnqueue (j : Job)
  | ECloseJobs
  | EWaited
  | ECloseResults
  | EDequeue (w : nat) (j : Job)
  | EScan (w : nat)
  | EEmit (w : nat) (r : Result)
  | EExit (w : nat)
  | EPanic
  | ECancel (e : error).

(** Who moves next. *)
Inductive Label : Type :=
  | LMain                         (* the goroutine of [ProcessFiles] *)
  | LWorker (w : nat)             (* worker [w]; at the [select], the job case *)
  | LWorkerDone (w : nat)         (* worker [w] at the [select], the [ctx.Done()] case *)
  | LCancel (e : error).          (* the context is cancelled from outside *)

Section Run.

Variable fs : FileSystem.
Variable fp : FileProcessor.

Definition job_of (filepath : string) : Job := mkJob filepath (fpWord fp).

(** The state after the two [make] calls and [var wg sync.WaitGroup]. *)
Definition init : State :=
  mkState (make (length (Files fp))) (make (length (Files fp))) 0 None
          (DSpawn 0) [] false.

(** A panic ends the program. *)
Definition panic (s : State) : State :=
  mkState (jobs s) (results s) (wg s) (ctx s) (main s) (workers s) true.

Definition step_main (s : State) : option (Event * State) :=
  match main s with
  | DSpawn i =>
      if i <? WorkerCount fp
      then Some (ESpawn (length (workers s)),
                 mkState (jobs s) (results s) (wg s + 1) (ctx s)
                         (DSpawn (i + 1)) (workers s ++ [WSelect]) (panicked s))
      else Some (ESpawned,
                 mkState (jobs s) (results s) (wg s) (ctx s)
                         (DFeed (Files fp)) (workers s) (panicked s))
  | DFeed (filepath :: rest) =>
      match send (jobs s) (job_of filepath) with
      | Sent c =>
          Some (EEnqueue (job_of filepath),
                mkState c (results s) (wg s) (ctx s) (DFeed rest) (workers s) (panicked s))
      | SendBlocks => None
      | SendPanic => Some (EPanic, panic s)
      end
  | DFeed [] =>
      match close (jobs s) with
      | Some c =>
          Some (ECloseJobs,
                mkState c (results s) (wg s) (ctx s) DWait (workers s) (panicked s))
      | None => Some (EPanic, panic s)
      end
  | DWait =>
      if wg s =? 0
      then Some (EWaited,
                 mkState (jobs s) (results s) (wg s) (ctx s) DCloseResults (workers s) (panicked s))
      else None
  | DCloseResults =>
      match close (results s) with
      | Some c =>
          Some (ECloseResults,
                mkState (jobs s) c (wg s) (ctx s) DReturn (workers s) (panicked s))
      | None => Some (EPanic, panic s)
      end
  | DReturn => None
  end.

(** Worker [w] moves to [ws]. *)
Definition set_worker (w : nat) (ws : Worker) (s : State) : State :=
  mkState (jobs s) (results s) (wg s) (ctx s) (main s)
          (<[w := ws]> (workers s)) (panicked s).

(** [return] from [Worker]: the deferred [wg.Done()] runs. *)
Definition exit_worker (w : nat) (s : State) : option (Event * State) :=
  match wg_done (wg s) with
  | Some g =>
      Some (EExit w,
            mkState (jobs s) (results s) g (ctx s) (main s)
                    (<[w := WDone]> (workers s)) (panicked s))
  | None => Some (EPanic, panic s)
  end.

(** The start of [CountWord]: [os.Open] and its error check. *)
Definition open_job (job : Job) : Worker :=
  match fs (FilePath job) with
  | OpenErr err => WSend (error_result (FilePath job) err)
  | OpenOk f => WScan job (file_lines f) (file_end f) 0
  end.

(** One turn of the scanning loop of [CountWord], or its end: the
    worker stays in the loop or holds the [Result] to send. *)
Definition scan_step (done : option error) (job : Job) (rest : list string)
    (e : ScanEnd) (wordCount : Z) : Worker :=
  match rest with
  | [] => WSend (scan_exit job e wordCount)
  | line :: rest' =>
      match scan_body done job line wordCount with
      | Return r => WSend r
      | Continue wordCount' => WScan job rest' e wordCount'
      end
  end.

Definition step_worker (w : nat) (s : State) : option (Event * State) :=
  match workers s !! w with
  | None => None
  | Some WSelect =>
      match recv (jobs s) with
      | Received job c =>
          Some (EDequeue w job,
                mkState c (results s) (wg s) (ctx s) (main s)
                        (<[w := open_job job]> (workers s)) (panicked s))
      | RecvClosed => exit_worker w s
      | RecvBlocks => None
      end
  | Some (WScan job rest e wordCount) =>
      Some (EScan w, set_worker w (scan_step (ctx s) job rest e wordCount) s)
  | Some (WSend r) =>
      match send (results s) r with
      | Sent c =>
          Some (EEmit w r,
                mkState (jobs s) c (wg s) (ctx s) (main s)
                        (<[w := WSelect]> (workers s)) (panicked s))
      | SendBlocks => None
      | SendPanic => Some (EPanic, panic s)
      end
  | Some WDone => None
  end.

Definition step_worker_done (w : nat) (s : State) : option (Event * State) :=
  match workers s !! w, ctx s with
  | Some WSelect, Some _ => exit_worker w s
  | _, _ => None
  end.

Definition step_cancel (e : error) (s : State) : option (Event * State) :=
  match ctx s with
  | None =>
      if is_ctx_err e
      then Some (ECancel e,
                 mkState (jobs s) (results s) (wg s) (Some e) (main s) (workers s) (panicked s))
      else None
  | Some _ => None
  end.

(** One step of the program; [None] when the chosen goroutine cannot
    move (it is blocked or has returned) or the program has crashed. *)
Definition step (l : Label) (s : State) : option (Event * State) :=
  if panicked s then None
  else match l with
       | LMain => step_main s
       | LWorker w => step_worker w s
       | LWorkerDone w => step_worker_done w s
       | LCancel e => step_cancel e s
       end.

(** What makes the program panic: a send on a closed channel, the
    [close] of a closed channel, or [wg.Done()] below zero. *)
Definition panics (s : State) : Prop :=
  (exists filepath rest, main s = DFeed (filepath :: rest) /\ closed (jobs s) = true)
  \/ (main s = DFeed [] /\ closed (jobs s) = true)
  \/ (main s = DCloseResults /\ closed (results s) = true)
  \/ (exists w r, workers s !! w = Some (WSend r) /\ closed (results s) = true)
  \/ (exists w, workers s !! w = Some WSelect /\ wg s - 1 < 0
                /\ ((buf (jobs s) = [] /\ closed (jobs s) = true) \/ ctx s <> None)).

(** The same steps as a relation, one rule per case of [step]
    ([step_Step], [Step_step]). *)
Inductive Step : State -> Event -> State -> Prop :=
  | Step_spawn j r g c i ws :
      i < WorkerCount fp ->
      Step (mkState j r g c (DSpawn i) ws false) (ESpawn (length ws))
           (mkState j r (g + 1) c (DSpawn (i + 1)) (ws ++ [WSelect]) false)
  | Step_spawned j r g c i ws :
      WorkerCount fp <= i ->
      Step (mkState j r g c (DSpawn i) ws false) ESpawned
           (mkState j r g c (DFeed (Files fp)) ws false)
  | Step_enqueue jb jcap r g c filepath rest ws :
      (length jb < jcap)%nat ->
      Step (mkState (mkChan jb jcap false) r g c (DFeed (filepath :: rest)) ws false)
           (EEnqueue (job_of filepath))
           (mkState (mkChan (jb ++ [job_of filepath]) jcap false) r g c (DFeed rest) ws false)
  | Step_close_jobs jb jcap r g c ws :
      Step (mkState (mkChan jb jcap false) r g c (DFeed []) ws false) ECloseJobs
           (mkState (mkChan jb jcap true) r g c DWait ws false)
  | Step_waited j r c ws :
      Step (mkState j r 0 c DWait ws false) EWaited
           (mkState j r 0 c DCloseResults ws false)
  | Step_close_results j rb rcap g c ws :
      Step (mkState j (mkChan rb rcap false) g c DCloseResults ws false) ECloseResults
           (mkState j (mkChan rb rcap true) g c DReturn ws false)
  | Step_dequeue job jb jcap jcl r g c m ws w :
      ws !! w = Some WSelect ->
      Step (mkState (mkChan (job :: jb) jcap jcl) r g c m ws false) (EDequeue w job)
           (mkState (mkChan jb jcap jcl) r g c m (<[w := open_job job]> ws) false)
  | Step_exit_closed jcap r g c m ws w :
      ws !! w = Some WSelect ->
      0 <= g - 1 ->
      Step (mkState (mkChan [] jcap true) r g c m ws false) (EExit w)
           (mkState (mkChan [] jcap true) r (g - 1) c m (<[w := WDone]> ws) false)
  | Step_exit_done j r g err m ws w :
      ws !! w = Some WSelect ->
      0 <= g - 1 ->
      Step (mkState j r g (Some err) m ws false) (EExit w)
           (mkState j r (g - 1) (Some err) m (<[w := WDone]> ws) false)
  | Step_scan j r g c m ws w job rest e wordCount :
      ws !! w = Some (WScan job rest e wordCount) ->
      Step (mkState j r g c m ws false) (EScan w)
           (mkState j r g c m (<[w := scan_step c job rest e wordCount]> ws) false)
  | Step_emit j rb rcap g c m ws w res :
      ws !! w = Some (WSend res) ->
      (length rb < rcap)%nat ->
      Step (mkState j (mkChan rb rcap false) g c m ws false) (EEmit w res)
           (mkState j (mkChan (rb ++ [res]) rcap false) g c m (<[w := WSelect]> ws) false)
  | Step_panic j r g c m ws :
      panics (mkState j r g c m ws false) ->
      Step (mkState j r g c m ws false) EPanic (mkState j r g c m ws true)
  | Step_cancel j r g m ws err :
      is_ctx_err err = true ->
      Step (mkState j r g None m ws false) (ECancel err)
           (mkState j r g (Some err) m ws false).

(** A run under the schedule [ls], with its trace. *)
Fixpoint exec (ls : list Label) (s : State) : option (list Event * State) :=
  match ls with
  | [] => Some ([], s)
  | l :: ls' =>
      match step l s with
      | None => None
      | Some (e, s') =>
          match exec ls' s' with
          | None => None
          | Some (tr, s'') => Some (e :: tr, s'')
          end
      end
  end.

(** The states and traces the program reaches from [init]. *)
Inductive Reach : list Event -> State -> Prop :=
  | Reach_init : Reach [] init
  | Reach_step tr s l e s' :
      Reach tr s -> step l s = Some (e, s') -> Reach (tr ++ [e]) s'.

(** The labels worth trying in state [s]. *)
Definition labels (s : State) : list Label :=
  LMain :: (seq 0 (length (workers s)) ≫= fun w => [LWorker w; LWorkerDone w]).

(** A scheduler that never cancels: it runs the first goroutine that
    can move, for at most [fuel] steps. *)
Definition first_enabled (s : State) : option (Event * State) :=
  list_find (fun o : option (Event * State) => is_Some o) (flip step s <$> labels s)
    ≫= snd.

Fixpoint run (fuel : nat) (s : State) : list Event * State :=
  match fuel with
  | O => ([], s)
  | S fuel' =>
      match first_enabled s with
      | None => ([], s)
      | Some (e, s') => let '(tr, s'') := run fuel' s' in (e :: tr, s'')
      end
  end.

End Run.

(** *** Observations on a trace *)

Definition enqueued (tr : list Event) : list Job :=
  omap (fun e => match e with EEnqueue j => Some j | _ => None end) tr.

Definition dequeued (tr : list Event) : list Job :=
  omap (fun e => match e with EDequeue _ j => Some j | _ => None end) tr.

Definition emitted (tr : list Event) : list Result :=
  omap (fun e => match e with EEmit _ r => Some r | _ => None end) tr.

(** The jobs worker [w] has received, in order. *)
Definition taken_by (w : nat) (tr : list Event) : list Job :=
  omap (fun e => match e with
                 | EDequeue w' j => if (w =? w')%nat then Some j else None
                 | _ => None
                 end) tr.

(** The results worker [w] has sent, in order. *)
Definition sent_by (w : nat) (tr : list Event) : list Result :=
  omap (fun e => match e with
                 | EEmit w' r => if (w =? w')%nat then Some r else None
                 | _ => None
                 end) tr.

Definition is_main_event (e : Event) : bool :=
  match e with
  | ESpawn _ | ESpawned | EEnqueue _ | ECloseJobs | EWaited | ECloseResults => true
  | _ => false
  end.

(** The steps of the goroutine of [ProcessFiles], in order. *)
Definition main_events (tr : list Event) : list Event :=
  List.filter is_main_event tr.

Definition is_cancel (e : Event) : bool :=
  match e with ECancel _ => true | _ => false end.

Definition cancelled_in (tr : list Event) : bool := existsb is_cancel tr.

(** What [main] finds when it ranges over [fp.Results] after
    [ProcessFiles] has returned. *)
Definition received (s : State) : list Result := buf (results s).

(** What the range loop of [main] prints for one [Result]: the error
    line when there is an error, and the count line in any case. *)
Inductive Printed : Type :=
  | PrintError (filepath : string) (err : error)
  | PrintProcessed (filepath : string) (wordCount : Z).

Definition report (r : Result) : list Printed :=
  match Error r with
  | Some err => [PrintError (rFilePath r) err]
  | None => []
  end ++ [PrintProcessed (rFilePath r) (WordCount r)].

Definition main_prints (s : State) : list Printed := received s ≫= report.

(** The pair the spec compares runs by. *)
Definition pair_of (r : Result) : string * Z := (rFilePath r, WordCount r).

(** *** Observations on the workers *)

Definition is_live (w : Worker) : bool :=
  match w with WDone => false | _ => true end.

(** The workers that have not returned. *)
Definition live (ws : list Worker) : list Worker := List.filter is_live ws.

(** The file a worker is busy with. *)
Definition in_flight (w : Worker) : option string :=
  match w with
  | WScan job _ _ _ => Some (FilePath job)
  | WSend r => Some (rFilePath r)
  | _ => None
  end.

(** The [Result] a busy worker sends if the context stays open. *)
Definition pending (w : Worker) : option Result :=
  match w with
  | WScan job rest e wordCount => Some (scan_loop Background job rest e wordCount)
  | WSend r => Some r
  | _ => None
  end.

(** *** A bound on the steps left *)
Section Measure.

Variable fs : FileSystem.
Variable fp : FileProcessor.

(** The steps a worker takes on a job after it has received it. *)
Definition job_cost (job : Job) : nat :=
  match fs (FilePath job) with
  | OpenErr _ => 1
  | OpenOk f => length (file_lines f) + 2
  end.

Definition worker_cost (w : Worker) : nat :=
  match w with
  | WSelect => 1
  | WScan _ rest _ _ => length rest + 3
  | WSend _ => 2
  | WDone => 0
  end.

Definition queue_cost (js : list Job) : nat :=
  sum_list_with (fun j => S (job_cost j)) js.

Definition feed_cost (rest : list string) : nat :=
  sum_list_with (fun f => S (S (job_cost (job_of fp f)))) rest + 3.

Definition main_cost (d : Dispatcher) : nat :=
  match d with
  | DSpawn i => 2 * Z.to_nat (WorkerCount fp - i) + 1 + feed_cost (Files fp)
  | DFeed rest => feed_cost rest
  | DWait => 2
  | DCloseResults => 1
  | DReturn => 0
  end.

Definition measure (s : State) : nat :=
  main_cost (main s) + queue_cost (buf (jobs s))
  + sum_list_with worker_cost (workers s)
  + match ctx s with Some _ => 0 | None => 1 end
  + (if panicked s then 0 else 1).

End Measure.

End Pipeline.

(** * Properties *)

(** ** Go's [int] *)

Lemma wrap_int_small (z : Z) : int_min <= z <= int_max -> wrap_int z = z.
Proof.
  unfold int_min, int_max, wrap_int. intros H.
  rewrite Z.mod_small; lia.
Qed.

Lemma wrap_int_add_l (a b : Z) : wrap_int (wrap_int a + b) = wrap_int (a + b).
Proof.
  unfold wrap_int.
  replace ((a + 2 ^ 63) mod 2 ^ 64 - 2 ^ 63 + b + 2 ^ 63)
    with ((a + 2 ^ 63) mod 2 ^ 64 + b) by lia.
  rewrite Zplus_mod_idemp_l. f_equal. f_equal. lia.
Qed.

(** ** [strings.Count] *)
Module strings_facts.
Import strings.

Lemma HasPrefix_length (s p : string) :
  HasPrefix s p = true -> (String.length p <= String.length s)%nat.
Proof.
  revert s. induction p as [|c p IH]; intros [|d s]; simpl; try lia; try discriminate.
  destruct (Ascii.eqb c d); [|discriminate]. intros H. apply IH in H. lia.
Qed.

Lemma Index_bound (s sub : string) (i : nat) :
  Index s sub = Some i -> (i + String.length sub <= String.length s)%nat.
Proof.
  revert i. induction s as [|d s IH]; intros i; cbn [Index].
  - destruct (HasPrefix EmptyString sub) eqn:E; [|discriminate].
    intros [= <-]. apply HasPrefix_length in E. simpl in *. lia.
  - destruct (HasPrefix (String d s) sub) eqn:E.
    + intros [= <-]. apply HasPrefix_length in E. simpl in *. lia.
    + destruct (Index s sub) as [k|]; simpl; [|discriminate].
      intros [= <-]. specialize (IH k eq_refl). simpl. lia.
Qed.

Lemma drop_length (n : nat) (s : string) :
  String.length (drop n s) = (String.length s - n)%nat.
Proof.
  revert s. induction n as [|n IH]; intros [|c s]; simpl; try lia. apply IH.
Qed.

Lemma CountString_bounds (s : string) (c : ascii) :
  0 <= CountString s c <= len s.
Proof.
  unfold len. induction s as [|d s IH]; simpl String.length; simpl CountString.
  - lia.
  - destruct (Ascii.eqb d c); lia.
Qed.

Lemma rune_count_from_bounds (s : string) (skip : nat) :
  0 <= rune_count_from skip s <= len s.
Proof.
  unfold len. revert skip. induction s as [|c s IH]; intros skip.
  - simpl. lia.
  - simpl rune_count_from. simpl String.length. destruct skip as [|k].
    + specialize (IH (Nat.pred (rune_size c s))). lia.
    + specialize (IH k). lia.
Qed.

Lemma count_loop_bounds (fuel : nat) (s sub : string) (n : Z) :
  sub <> EmptyString ->
  n <= count_loop fuel s sub n <= n + len s.
Proof.
  intros Hsub. unfold len. revert s n.
  induction fuel as [|fuel IH]; intros s n; simpl.
  - lia.
  - destruct (Index s sub) as [i|] eqn:E; [|lia].
    specialize (IH (drop (i + String.length sub) s) (n + 1)).
    rewrite drop_length in IH. apply Index_bound in E.
    destruct sub; [congruence|]. simpl in *. lia.
Qed.

(** The loop of [strings.Count] stops by itself: more fuel than the
    length of [s] changes nothing. *)
Lemma count_loop_fuel (fuel : nat) (s sub : string) (n : Z) :
  sub <> EmptyString ->
  (String.length s < fuel)%nat ->
  count_loop (S fuel) s sub n = count_loop fuel s sub n.
Proof.
  intros Hsub. revert s n. induction fuel as [|fuel IH]; intros s n Hlen; [lia|].
  change (count_loop (S (S fuel)) s sub n)
    with (match Index s sub with
          | None => n
          | Some i => count_loop (S fuel) (drop (i + String.length sub) s) sub (n + 1)
          end).
  simpl. destruct (Index s sub) as [i|] eqn:E; [|reflexivity].
  apply IH. rewrite drop_length. apply Index_bound in E.
  destruct sub; [congruence|]. simpl in *. lia.
Qed.

Lemma Count_bounds (s sub : string) : 0 <= Count s sub <= len s + 1.
Proof.
  unfold Count. destruct sub as [|c [|d sub]].
  - pose proof (rune_count_from_bounds s 0). unfold RuneCountInString. lia.
  - pose proof (CountString_bounds s c). lia.
  - pose proof (count_loop_bounds (S (String.length s)) s (String c (String d sub)) 0
                  ltac:(discriminate)).
    lia.
Qed.

(** With an empty [substr] every line counts, the empty one too. *)
Lemma Count_empty_word (s : string) :
  Count s EmptyString = RuneCountInString s + 1 /\ 1 <= Count s EmptyString.
Proof.
  split; [reflexivity|]. simpl.
  pose proof (rune_count_from_bounds s 0). unfold RuneCountInString. lia.
Qed.

(** *** [strings.Count] and the non-overlapping occurrences *)

Lemma drop_drop (a b : nat) (s : string) : drop a (drop b s) = drop (b + a) s.
Proof.
  revert s. induction b as [|b IH]; intros s; [reflexivity|].
  destruct s as [|c s]; cbn [drop Nat.add].
  - destruct a; reflexivity.
  - apply IH.
Qed.

Lemma Index_Some (s sub : string) (i : nat) :
  Index s sub = Some i ->
  HasPrefix (drop i s) sub = true
  /\ forall j, (j < i)%nat -> HasPrefix (drop j s) sub = false.
Proof.
  revert i. induction s as [|d s IH]; intros i; cbn [Index].
  - destruct (HasPrefix EmptyString sub) eqn:E; [|discriminate].
    intros [= <-]. split; [exact E|]. intros j Hj. lia.
  - destruct (HasPrefix (String d s) sub) eqn:E.
    + intros [= <-]. split; [exact E|]. intros j Hj. lia.
    + destruct (Index s sub) as [k|]; cbn; [|discriminate].
      intros [= <-]. destruct (IH k eq_refl) as [Hk Hlt]. split; [exact Hk|].
      intros [|j] Hj; [exact E|]. cbn [drop]. apply Hlt. lia.
Qed.

Lemma Index_None (s sub : string) (j : nat) :
  Index s sub = None -> HasPrefix (drop j s) sub = false.
Proof.
  revert j. induction s as [|d s IH]; intros j; cbn [Index].
  - destruct (HasPrefix EmptyString sub) eqn:E; [discriminate|].
    intros _. destruct j; exact E.
  - destruct (HasPrefix (String d s) sub) eqn:E; [discriminate|].
    destruct (Index s sub) as [k|] eqn:Ek; cbn; [discriminate|].
    intros _. destruct j as [|j]; [exact E|]. cbn [drop]. apply IH. reflexivity.
Qed.

Lemma Occurrences_shift (sub s : string) (k : nat) (ps : list nat) :
  Occurrences sub (drop k s) ps ->
  exists ps', Occurrences sub s ps' /\ length ps' = length ps.
Proof.
  intros H. inversion H as [|s0 p ps0 Hp Hrest]; subst.
  - exists []. split; [constructor|reflexivity].
  - exists ((k + p)%nat :: ps0). split; [|reflexivity].
    rewrite drop_drop in Hp, Hrest. constructor; [exact Hp|].
    rewrite <- Nat.add_assoc. exact Hrest.
Qed.

(** The loop finds a list of non-overlapping occurrences... *)
Lemma count_loop_reached (sub : string) (fuel : nat) (s : string) (n : Z) :
  exists ps, Occurrences sub s ps /\ count_loop fuel s sub n = n + Z.of_nat (length ps).
Proof.
  revert s n. induction fuel as [|fuel IH]; intros s n; cbn [count_loop].
  - exists []. split; [constructor|cbn; lia].
  - destruct (Index s sub) as [i|] eqn:E.
    + destruct (IH (drop (i + String.length sub) s) (n + 1)) as (ps & Hps & Hn).
      exists (i :: ps). split.
      * constructor; [apply (Index_Some _ _ _ E)|exact Hps].
      * rewrite Hn. cbn [length]. lia.
    + exists []. split; [constructor|cbn; lia].
Qed.

(** ... and no list is longer. *)
Lemma count_loop_most (sub : string) (fuel : nat) (s : string) (n : Z)
    (ps : list nat) :
  sub <> EmptyString ->
  (String.length s < fuel)%nat ->
  Occurrences sub s ps ->
  n + Z.of_nat (length ps) <= count_loop fuel s sub n.
Proof.
  intros Hsub. revert s n ps. induction fuel as [|fuel IH]; intros s n ps Hlen H; [lia|].
  inversion H as [|s0 p ps0 Hp Hrest]; subst.
  - pose proof (count_loop_bounds (S fuel) s sub n Hsub). cbn [length]. lia.
  - cbn [count_loop]. destruct (Index s sub) as [i|] eqn:E.
    + destruct (Index_Some _ _ _ E) as [_ Hlt].
      assert (Hip : (i <= p)%nat).
      { destruct (Nat.le_gt_cases i p) as [|Hgt]; [assumption|].
        rewrite (Hlt p Hgt) in Hp. discriminate. }
      replace (p + String.length sub)%nat
        with ((i + String.length sub) + (p - i))%nat in Hrest by lia.
      rewrite <- drop_drop in Hrest.
      apply Occurrences_shift in Hrest as (ps' & Hps' & Hl).
      assert (Hfuel : (String.length (drop (i + String.length sub) s) < fuel)%nat).
      { rewrite drop_length. apply Index_bound in E.
        destruct sub; [congruence|]. cbn [String.length] in *. lia. }
      specialize (IH _ (n + 1) ps' Hfuel Hps'). cbn [length]. lia.
    + rewrite (Index_None s sub p E) in Hp. discriminate.
Qed.

Lemma count_loop_S (fuel : nat) (s sub : string) (n : Z) :
  count_loop (S fuel) s sub n
  = match Index s sub with
    | None => n
    | Some i => count_loop fuel (drop (i + String.length sub) s) sub (n + 1)
    end.
Proof. reflexivity. Qed.

Lemma count_loop_skip (fuel : nat) (d : ascii) (s sub : string) (n : Z) :
  HasPrefix (String d s) sub = false ->
  count_loop (S fuel) (String d s) sub n = count_loop (S fuel) s sub n.
Proof.
  intros E. rewrite !count_loop_S. cbn [Index]. rewrite E.
  destruct (Index s sub) as [i|]; reflexivity.
Qed.

(** The one-byte case of [strings.Count] counts what the loop counts. *)
Lemma CountString_loop (s : string) (c : ascii) (n : Z) :
  count_loop (S (String.length s)) s (String c EmptyString) n = n + CountString s c.
Proof.
  revert n. induction s as [|d s IH]; intros n.
  - cbn. lia.
  - cbn [String.length CountString].
    destruct (Ascii.eqb d c) eqn:E.
    + apply Ascii.eqb_eq in E. subst d.
      rewrite count_loop_S. cbn [Index HasPrefix]. rewrite Ascii.eqb_refl.
      cbn [String.length Nat.add drop]. rewrite IH. lia.
    + rewrite count_loop_skip.
      * rewrite count_loop_fuel by (try discriminate; lia). rewrite IH. lia.
      * cbn [HasPrefix]. rewrite Ascii.eqb_sym, E. reflexivity.
Qed.

Lemma Count_loop (s sub : string) :
  sub <> EmptyString -> Count s sub = count_loop (S (String.length s)) s sub 0.
Proof.
  intros Hsub. destruct sub as [|c [|d sub]]; [congruence| |reflexivity].
  cbn [Count]. rewrite CountString_loop. lia.
Qed.

(** For a word that is not empty, [strings.Count] is the number of
    non-overlapping occurrences. *)
Lemma Count_occurrences (s sub : string) :
  sub <> EmptyString -> occurrence_count s sub (Count s sub).
Proof.
  intros Hsub. rewrite (Count_loop s sub Hsub). split.
  - destruct (count_loop_reached sub (S (String.length s)) s 0) as (ps & Hps & Hn).
    exists ps. split; [exact Hps|lia].
  - intros ps Hps.
    pose proof (count_loop_most sub (S (String.length s)) s 0 ps Hsub ltac:(lia) Hps).
    lia.
Qed.

End strings_facts.

(** ** [CountWord] *)

(** The number the spec speaks of: the occurrences of [word] summed over
    the lines, as a mathematical integer. *)
Definition total_count (word : string) (lines : list string) : Z :=
  foldr (fun line acc => strings.Count line word + acc) 0 lines.

(** [ctx.Done()] stays open for the next [n] polls. *)
Definition stays_open (ctx : Context) (n : nat) : bool :=
  match ctx_open ctx with
  | None => true
  | Some k => (n <=? k)%nat
  end.

Lemma total_count_bounds (word : string) (lines : list string) :
  0 <= total_count word lines <=
    foldr (fun line acc => strings.len line + 1 + acc) 0 lines.
Proof.
  induction lines as [|l ls IH]; simpl; [lia|].
  pose proof (strings_facts.Count_bounds l word). lia.
Qed.

Lemma total_count_app (word : string) (l1 l2 : list string) :
  total_count word (l1 ++ l2) = total_count word l1 + total_count word l2.
Proof. induction l1 as [|l l1 IH]; simpl; lia. Qed.

Lemma stays_open_S (ctx : Context) (n : nat) :
  stays_open ctx (S n) = true -> poll ctx = None /\ stays_open (tick ctx) n = true.
Proof.
  unfold stays_open, poll, tick.
  destruct ctx as [[[|k]|] err]; cbn [ctx_open ctx_error]; intros H;
    try discriminate; split; try reflexivity.
  apply Nat.leb_le in H. apply Nat.leb_le. lia.
Qed.

(** A scan that is not cancelled adds up all the lines, in [int]. *)
Lemma scan_loop_open (ctx : Context) (job : Job) (lines : list string)
    (e : ScanEnd) (a : Z) :
  stays_open ctx (length lines) = true ->
  scan_loop ctx job lines e (wrap_int a)
  = scan_exit job e (wrap_int (a + total_count (Word job) lines)).
Proof.
  revert ctx a. induction lines as [|l ls IH]; intros ctx a Hopen.
  - simpl. do 2 f_equal. lia.
  - apply stays_open_S in Hopen as [Hp Ht]. simpl. rewrite Hp. simpl.
    unfold int_add. rewrite wrap_int_add_l, (IH _ _ Ht).
    do 2 f_equal. lia.
Qed.

(** A scan that finds the context done before some line returns the
    context's error, whatever it had counted. *)
Lemma scan_loop_cancelled (ctx : Context) (job : Job) (lines : list string)
    (e : ScanEnd) (wordCount : Z) (k : nat) :
  ctx_open ctx = Some k -> (k < length lines)%nat ->
  scan_loop ctx job lines e wordCount = error_result (FilePath job) (ctx_error ctx).
Proof.
  revert ctx wordCount k. induction lines as [|l ls IH]; intros ctx n k Hk Hlt.
  - simpl in Hlt. lia.
  - simpl. unfold poll. rewrite Hk. destruct k as [|k]; simpl; [reflexivity|].
    assert (Ht : tick ctx = mkContext (Some k) (ctx_error ctx))
      by (unfold tick; rewrite Hk; reflexivity).
    rewrite Ht, (IH (mkContext (Some k) (ctx_error ctx)) _ k); [reflexivity..|].
    simpl in Hlt. lia.
Qed.

Lemma scan_loop_FilePath (ctx : Context) (job : Job) (lines : list string)
    (e : ScanEnd) (wordCount : Z) :
  rFilePath (scan_loop ctx job lines e wordCount) = FilePath job.
Proof.
  revert ctx wordCount. induction lines as [|l ls IH]; intros ctx n; simpl.
  - destruct e; reflexivity.
  - destruct (poll ctx); simpl; [reflexivity|apply IH].
Qed.

Lemma CountWord_rFilePath (fs : FileSystem) (ctx : Context) (job : Job) :
  rFilePath (CountWord fs ctx job) = FilePath job.
Proof.
  unfold CountWord. destruct (fs (FilePath job)) as [err|f]; [reflexivity|].
  apply scan_loop_FilePath.
Qed.

(** ** The run of [ProcessFiles] *)
Module Pipeline_facts.
Import Pipeline.

Ltac proj_simpl :=
  cbn [panicked main jobs results wg ctx workers closed buf cap].

Ltac proj_simpl_all :=
  cbn [panicked main jobs results wg ctx workers closed buf cap] in *.

Lemma insert_split {A : Type} (ws : list A) (w : nat) (old : A) :
  ws !! w = Some old ->
  exists l1 l2, ws = l1 ++ old :: l2 /\ length l1 = w /\
                forall new, <[w := new]> ws = l1 ++ new :: l2.
Proof.
  intros H. exists (take w ws), (drop (S w) ws).
  pose proof (lookup_lt_Some _ _ _ H) as Hlt.
  split; [symmetry; apply take_drop_middle, H|].
  split; [rewrite length_take; lia|].
  intros new. apply insert_take_drop, Hlt.
Qed.

Lemma enqueued_snoc tr e : enqueued (tr ++ [e]) = enqueued tr ++ enqueued [e].
Proof. apply omap_app. Qed.
Lemma dequeued_snoc tr e : dequeued (tr ++ [e]) = dequeued tr ++ dequeued [e].
Proof. apply omap_app. Qed.
Lemma emitted_snoc tr e : emitted (tr ++ [e]) = emitted tr ++ emitted [e].
Proof. apply omap_app. Qed.
Lemma main_events_snoc tr e : main_events (tr ++ [e]) = main_events tr ++ main_events [e].
Proof. apply List.filter_app. Qed.
Lemma cancelled_in_snoc tr e : cancelled_in (tr ++ [e]) = cancelled_in tr || is_cancel e.
Proof. unfold cancelled_in. rewrite existsb_app. simpl. rewrite orb_false_r. reflexivity. Qed.

Ltac snoc_simpl :=
  rewrite ?enqueued_snoc, ?dequeued_snoc, ?emitted_snoc, ?main_events_snoc,
    ?cancelled_in_snoc;
  cbn [enqueued dequeued emitted main_events omap list_omap List.filter is_main_event is_cancel];
  rewrite ?app_nil_r, ?orb_false_r.

Lemma live_app ws1 ws2 : live (ws1 ++ ws2) = live ws1 ++ live ws2.
Proof. apply List.filter_app. Qed.

Section Run.

Variable fs : FileSystem.
Variable fp : FileProcessor.

Local Abbreviation step := (step fs fp).
Local Abbreviation Step := (Step fs fp).
Local Abbreviation Reach := (Reach fs fp).
Local Abbreviation exec := (exec fs fp).
Local Abbreviation init := (init fp).
Local Abbreviation job_of := (job_of fp).

(** Every step of [step] is one of the rules of [Step]. *)
Lemma step_Step (l : Label) (s : State) (e : Event) (s' : State) :
  step l s = Some (e, s') -> Step s e s'.
Proof.
  destruct s as [j r g c m ws p]. unfold Pipeline.step. cbn [panicked].
  destruct p; [discriminate|]. destruct l as [|w|w|err].
  - unfold step_main. proj_simpl.
    destruct m as [i|[|f rest]| | |].
    + destruct (i <? WorkerCount fp) eqn:E; intros [= <- <-].
      * apply Step_spawn. lia.
      * apply Step_spawned. lia.
    + destruct j as [jb jcap jcl]. unfold close. proj_simpl.
      destruct jcl; intros [= <- <-].
      * apply Step_panic. right. left. split; reflexivity.
      * apply Step_close_jobs.
    + destruct j as [jb jcap jcl]. unfold send. proj_simpl.
      destruct jcl.
      * intros [= <- <-]. apply Step_panic. left. exists f, rest. split; reflexivity.
      * destruct (length jb <? jcap)%nat eqn:E; [|discriminate].
        intros [= <- <-]. apply Step_enqueue. apply Nat.ltb_lt, E.
    + destruct (g =? 0) eqn:E; [|discriminate].
      apply Z.eqb_eq in E. subst g. intros [= <- <-]. apply Step_waited.
    + destruct r as [rb rcap rcl]. unfold close. proj_simpl.
      destruct rcl; intros [= <- <-].
      * apply Step_panic. do 2 right. left. split; reflexivity.
      * apply Step_close_results.
    + discriminate.
  - unfold step_worker. proj_simpl.
    destruct (ws !! w) as [[|job rest e0 n|res|]|] eqn:Hw; try discriminate.
    + destruct j as [[|job jb] jcap jcl]; unfold recv; proj_simpl.
      * destruct jcl; [|discriminate]. unfold exit_worker, wg_done. proj_simpl.
        destruct (Z.ltb_spec (g - 1) 0); intros [= <- <-].
        -- apply Step_panic. do 4 right. exists w. proj_simpl. auto.
        -- apply Step_exit_closed; assumption.
      * intros [= <- <-]. apply Step_dequeue, Hw.
    + intros [= <- <-]. apply Step_scan, Hw.
    + destruct r as [rb rcap rcl]. unfold send. proj_simpl.
      destruct rcl.
      * intros [= <- <-]. apply Step_panic. do 3 right. left. exists w, res.
        split; [exact Hw|reflexivity].
      * destruct (length rb <? rcap)%nat eqn:E; [|discriminate].
        intros [= <- <-]. apply Step_emit; [apply Hw|apply Nat.ltb_lt, E].
  - unfold step_worker_done. proj_simpl.
    destruct (ws !! w) as [[| | |]|] eqn:Hw; try discriminate.
    destruct c as [err|]; [|discriminate].
    unfold exit_worker, wg_done. proj_simpl.
    destruct (Z.ltb_spec (g - 1) 0); intros [= <- <-].
    + apply Step_panic. do 4 right. exists w. proj_simpl.
      split; [exact Hw|]. split; [assumption|]. right. discriminate.
    + apply Step_exit_done; assumption.
  - unfold step_cancel. proj_simpl.
    destruct c; [discriminate|].
    destruct (is_ctx_err err) eqn:E; [|discriminate].
    intros [= <- <-]. apply Step_cancel, E.
Qed.

(** Conversely, every rule of [Step] is a step of some goroutine. *)
Lemma Step_step (s : State) (e : Event) (s' : State) :
  Step s e s' -> exists l, step l s = Some (e, s').
Proof.
  intros H. destruct H.
  - exists LMain. unfold Pipeline.step, step_main. proj_simpl.
    destruct (Z.ltb_spec i (WorkerCount fp)); [reflexivity|lia].
  - exists LMain. unfold Pipeline.step, step_main. proj_simpl.
    destruct (Z.ltb_spec i (WorkerCount fp)); [lia|reflexivity].
  - exists LMain. unfold Pipeline.step, step_main, send. proj_simpl.
    destruct (Nat.ltb_spec (length jb) jcap); [reflexivity|lia].
  - exists LMain. reflexivity.
  - exists LMain. reflexivity.
  - exists LMain. reflexivity.
  - exists (LWorker w). unfold Pipeline.step, step_worker. proj_simpl.
    rewrite H. reflexivity.
  - exists (LWorker w). unfold Pipeline.step, step_worker, exit_worker, wg_done.
    proj_simpl. rewrite H. cbn [recv buf closed].
    destruct (Z.ltb_spec (g - 1) 0); [lia|reflexivity].
  - exists (LWorkerDone w). unfold Pipeline.step, step_worker_done, exit_worker, wg_done.
    proj_simpl. rewrite H.
    destruct (Z.ltb_spec (g - 1) 0); [lia|reflexivity].
  - exists (LWorker w). unfold Pipeline.step, step_worker. proj_simpl.
    rewrite H. reflexivity.
  - exists (LWorker w). unfold Pipeline.step, step_worker, send. proj_simpl.
    rewrite H. destruct (Nat.ltb_spec (length rb) rcap); [reflexivity|lia].
  - destruct H as [(f & rest & Hm & Hc)|[[Hm Hc]|[[Hm Hc]|[(w & res & Hw & Hc)|(w & Hw & Hg & Hx)]]]];
      proj_simpl_all.
    + exists LMain. unfold Pipeline.step, step_main, send. proj_simpl.
      rewrite Hm, Hc. reflexivity.
    + exists LMain. unfold Pipeline.step, step_main, close. proj_simpl.
      rewrite Hm, Hc. reflexivity.
    + exists LMain. unfold Pipeline.step, step_main, close. proj_simpl.
      rewrite Hm, Hc. reflexivity.
    + exists (LWorker w). unfold Pipeline.step, step_worker, send. proj_simpl.
      rewrite Hw, Hc. reflexivity.
    + destruct Hx as [[Hb Hc]|Hc].
      * exists (LWorker w). unfold Pipeline.step, step_worker, recv, exit_worker, wg_done.
        proj_simpl. rewrite Hw, Hb, Hc.
        destruct (Z.ltb_spec (g - 1) 0); [reflexivity|lia].
      * exists (LWorkerDone w).
        unfold Pipeline.step, step_worker_done, exit_worker, wg_done.
        proj_simpl. rewrite Hw. destruct c; [|congruence].
        destruct (Z.ltb_spec (g - 1) 0); [reflexivity|lia].
  - exists (LCancel err). unfold Pipeline.step, step_cancel. proj_simpl.
    rewrite H. reflexivity.
Qed.

Lemma exec_Reach (ls : list Label) (tr0 : list Event) (s0 : State)
    (tr : list Event) (s : State) :
  Reach tr0 s0 -> exec ls s0 = Some (tr, s) -> Reach (tr0 ++ tr) s.
Proof.
  revert tr0 s0 tr. induction ls as [|l ls IH]; intros tr0 s0 tr HR; simpl.
  - intros [= <- <-]. rewrite app_nil_r. exact HR.
  - destruct (step l s0) as [[e s1]|] eqn:Hs; [|discriminate].
    destruct (exec ls s1) as [[tr1 s2]|] eqn:He; [|discriminate].
    intros [= <- <-].
    replace (tr0 ++ e :: tr1) with ((tr0 ++ [e]) ++ tr1)
      by (rewrite <- app_assoc; reflexivity).
    eapply IH; [|exact He]. eapply Reach_step; eassumption.
Qed.

Lemma exec_init_Reach (ls : list Label) (tr : list Event) (s : State) :
  exec ls init = Some (tr, s) -> Reach tr s.
Proof. intros H. apply (exec_Reach ls [] init tr s (Reach_init fs fp) H). Qed.

(** *** Invariants of the run *)

Definition pool : nat := Z.to_nat (WorkerCount fp).
Definition all_jobs : list Job := job_of <$> Files fp.
Definition spawn_events (n : nat) : list Event := ESpawn <$> seq 0 n.

(** What the goroutine of [ProcessFiles] has done when it stands at [d]. *)
Definition main_trace (d : Dispatcher) (done : list Job) : list Event :=
  match d with
  | DSpawn i => spawn_events (Z.to_nat i)
  | DFeed _ => spawn_events pool ++ ESpawned :: (EEnqueue <$> done)
  | DWait => spawn_events pool ++ ESpawned :: (EEnqueue <$> done) ++ [ECloseJobs]
  | DCloseResults => spawn_events pool ++ ESpawned :: (EEnqueue <$> done) ++ [ECloseJobs; EWaited]
  | DReturn => spawn_events pool ++ ESpawned :: (EEnqueue <$> done) ++ [ECloseJobs; EWaited; ECloseResults]
  end.

Definition to_feed (d : Dispatcher) : list string :=
  match d with
  | DSpawn _ => Files fp
  | DFeed rest => rest
  | _ => []
  end.

Definition jobs_closed_at (d : Dispatcher) : bool :=
  match d with DSpawn _ | DFeed _ => false | _ => true end.
Definition results_closed_at (d : Dispatcher) : bool :=
  match d with DReturn => true | _ => false end.
Definition waited_at (d : Dispatcher) : bool :=
  match d with DCloseResults | DReturn => true | _ => false end.

Record Inv (tr : list Event) (s : State) : Prop := {
  inv_jobs_cap : cap (jobs s) = length (Files fp);
  inv_results_cap : cap (results s) = length (Files fp);
  inv_panicked : panicked s = false;
  inv_queue : dequeued tr ++ buf (jobs s) = enqueued tr;
  inv_results : buf (results s) = emitted tr;
  inv_wg : wg s = Z.of_nat (length (live (workers s)));
  inv_ctx : ctx s = None <-> cancelled_in tr = false;
  inv_fed : enqueued tr ++ (job_of <$> to_feed (main s)) = all_jobs;
  inv_jobs_closed : closed (jobs s) = jobs_closed_at (main s);
  inv_results_closed : closed (results s) = results_closed_at (main s);
  inv_waited : waited_at (main s) = true -> live (workers s) = [];
  inv_main_events : main_events tr = main_trace (main s) (enqueued tr);
  inv_pool :
    match main s with
    | DSpawn i => 0 <= i <= Z.max 0 (WorkerCount fp) /\ length (workers s) = Z.to_nat i /\ enqueued tr = []
    | _ => length (workers s) = pool
    end
}.


Lemma Inv_init : Inv [] init.
Proof.
  split; try reflexivity.
  - split; reflexivity.
  - simpl. repeat split; lia.
Qed.

Lemma live_insert (ws : list Worker) (w : nat) (old new : Worker) :
  ws !! w = Some old ->
  (length (live (<[w := new]> ws)) + (if is_live old then 1 else 0)
   = length (live ws) + (if is_live new then 1 else 0))%nat.
Proof.
  intros H. destruct (insert_split _ _ _ H) as (l1 & l2 & Hws & _ & Hins).
  rewrite Hins, Hws, !live_app, !length_app. cbn [live List.filter].
  destruct (is_live old), (is_live new); cbn [length]; lia.
Qed.

Lemma live_nil_lookup (ws : list Worker) (w : nat) (x : Worker) :
  live ws = [] -> ws !! w = Some x -> x = WDone.
Proof.
  intros Hl H. destruct (insert_split _ _ _ H) as (l1 & l2 & Hws & _ & _).
  rewrite Hws, live_app in Hl. apply app_eq_nil in Hl as [_ Hl].
  cbn [live List.filter] in Hl. destruct x; try discriminate. reflexivity.
Qed.

Lemma is_live_open_job (job : Job) : is_live (open_job fs job) = true.
Proof. unfold open_job. destruct (fs (FilePath job)); reflexivity. Qed.

Lemma is_live_scan_step c job rest e n : is_live (scan_step c job rest e n) = true.
Proof.
  unfold scan_step. destruct rest; [reflexivity|].
  destruct (scan_body c job s n); reflexivity.
Qed.

Lemma spawn_events_S (n : nat) : spawn_events (S n) = spawn_events n ++ [ESpawn n].
Proof. unfold spawn_events. rewrite seq_S, fmap_app. reflexivity. Qed.

Ltac inv_split :=
  split; proj_simpl; snoc_simpl; rewrite ?length_insert;
  cbn [to_feed jobs_closed_at results_closed_at waited_at main_trace fmap list_fmap];
  rewrite ?app_nil_r;
  try assumption; try discriminate; try reflexivity.

Ltac events_norm :=
  repeat (rewrite <- ?app_assoc; cbn [app fmap list_fmap]); reflexivity.

(** No send on a closed channel, no second [close], no [wg.Done()]
    without its [wg.Add(1)]. *)
Lemma Inv_no_panic tr s : Inv tr s -> ~ panics s.
Proof.
  intros [] [(f & rest & Hm & Hc)|[[Hm Hc]|[[Hm Hc]|[(w & res & Hw & Hc)|(w & Hw & Hg & _)]]]].
  - rewrite Hm, Hc in inv_jobs_closed0. discriminate.
  - rewrite Hm, Hc in inv_jobs_closed0. discriminate.
  - rewrite Hm, Hc in inv_results_closed0. discriminate.
  - rewrite Hc in inv_results_closed0.
    destruct (main s); try discriminate. cbn [waited_at] in inv_waited0.
    specialize (inv_waited0 eq_refl).
    apply (live_nil_lookup _ _ _ inv_waited0) in Hw. discriminate.
  - pose proof (live_insert _ _ _ WDone Hw) as Hl. cbn [is_live] in Hl. lia.
Qed.

Lemma Inv_step tr s e s' : Inv tr s -> Step s e s' -> Inv (tr ++ [e]) s'.
Proof.
  intros [] HS.
  destruct HS; proj_simpl_all;
    cbn [to_feed jobs_closed_at results_closed_at waited_at main_trace fmap list_fmap] in *;
    rewrite ?app_nil_r in *.
  - (* spawn *)
    destruct inv_pool0 as (Hi & Hlen & Henq).
    inv_split.
    + rewrite live_app, length_app. cbn. lia.
    + rewrite inv_main_events0, Hlen.
      replace (Z.to_nat (i + 1)) with (S (Z.to_nat i)) by lia.
      rewrite spawn_events_S. reflexivity.
    + rewrite length_app. cbn [length]. repeat split; try lia. exact Henq.
  - (* spawning ends *)
    destruct inv_pool0 as (Hi & Hlen & Henq).
    assert (Hp : Z.to_nat i = pool) by (unfold pool; lia).
    inv_split.
    + rewrite inv_main_events0, Hp, Henq. reflexivity.
    + lia.
  - (* enqueue *)
    inv_split.
    + rewrite app_assoc. f_equal. exact inv_queue0.
    + rewrite <- app_assoc. exact inv_fed0.
    + rewrite inv_main_events0, fmap_app. events_norm.
  - (* close(jobs) *)
    inv_split.
    rewrite inv_main_events0. events_norm.
  - (* wg.Wait() returns *)
    inv_split.
    + intros _. apply nil_length_inv. lia.
    + rewrite inv_main_events0. events_norm.
  - (* close(fp.Results) *)
    inv_split.
    rewrite inv_main_events0. events_norm.
  - (* a worker receives a job *)
    pose proof (live_insert _ _ _ (open_job fs job) H) as Hl.
    rewrite is_live_open_job in Hl. cbn [is_live] in Hl.
    inv_split.
    all: try (intros Hw; apply inv_waited0 in Hw;
      apply (live_nil_lookup _ _ _ Hw) in H; discriminate).
    + rewrite <- app_assoc. exact inv_queue0.
    + lia.
  - (* a worker finds the queue closed *)
    pose proof (live_insert _ _ _ WDone H) as Hl. cbn [is_live] in Hl.
    inv_split.
    + lia.
    + intros Hw. apply inv_waited0 in Hw.
      apply (live_nil_lookup _ _ _ Hw) in H. discriminate.
  - (* a worker finds the context done *)
    pose proof (live_insert _ _ _ WDone H) as Hl. cbn [is_live] in Hl.
    inv_split.
    + lia.
    + intros Hw. apply inv_waited0 in Hw.
      apply (live_nil_lookup _ _ _ Hw) in H. discriminate.
  - (* a worker scans *)
    pose proof (live_insert _ _ _ (scan_step c job rest e wordCount) H) as Hl.
    rewrite is_live_scan_step in Hl. cbn [is_live] in Hl.
    inv_split.
    + lia.
    + intros Hw. apply inv_waited0 in Hw.
      apply (live_nil_lookup _ _ _ Hw) in H. discriminate.
  - (* a worker sends its result *)
    pose proof (live_insert _ _ _ WSelect H) as Hl. cbn [is_live] in Hl.
    inv_split.
    + f_equal. exact inv_results0.
    + lia.
    + intros Hw. apply inv_waited0 in Hw.
      apply (live_nil_lookup _ _ _ Hw) in H. discriminate.
  - (* a panic: excluded *)
    exfalso. eapply (Inv_no_panic tr); [|exact H].
    split; proj_simpl; assumption.
  - (* cancel *)
    inv_split.
    split; [discriminate|]. rewrite orb_true_r. discriminate.
Qed.

Lemma Reach_Inv tr s : Reach tr s -> Inv tr s.
Proof.
  induction 1 as [|tr s l e s' _ IH Hs].
  - apply Inv_init.
  - eapply Inv_step; [exact IH|]. eapply step_Step, Hs.
Qed.

(** *** Jobs taken and results sent *)

Lemma omap_insert_perm {A : Type} (p : Worker -> option A) (ws : list Worker)
    (w : nat) (old new : Worker) :
  ws !! w = Some old ->
  option_list (p old) ++ omap p (<[w := new]> ws)
  ≡ₚ option_list (p new) ++ omap p ws.
Proof.
  intros H. destruct (insert_split _ _ _ H) as (l1 & l2 & Hws & _ & Hins).
  rewrite Hins, Hws, !omap_app. cbn [omap list_omap].
  destruct (p old), (p new); cbn [option_list app]; solve_Permutation.
Qed.

Section Flight.
Context {A : Type} (g : Job -> A) (h : Result -> A) (p : Worker -> option A).
Variable ok : option error -> Prop.
Hypothesis p_select : p WSelect = None.
Hypothesis p_done : p WDone = None.
Hypothesis p_open : forall job, p (open_job fs job) = Some (g job).
Hypothesis p_send : forall r, p (WSend r) = Some (h r).
Hypothesis p_scan : forall c job rest e n,
  ok c -> p (scan_step c job rest e n) = p (WScan job rest e n).
Hypothesis ok_cancel : forall err, ok (Some err) -> ok None.

Definition Flight (tr : list Event) (s : State) : Prop :=
  ok (ctx s) -> g <$> dequeued tr ≡ₚ (h <$> emitted tr) ++ omap p (workers s).

Lemma Flight_step tr s e s' : Flight tr s -> Step s e s' -> Flight (tr ++ [e]) s'.
Proof.
  unfold Flight. intros HF HS.
  destruct HS; proj_simpl_all; snoc_simpl; intros Hok;
    try (exact (HF Hok)).
  - rewrite omap_app. cbn [omap list_omap]. rewrite p_select, app_nil_r. exact (HF Hok).
  - pose proof (omap_insert_perm p _ _ _ (open_job fs job) H) as Hp.
    rewrite p_select, p_open in Hp. cbn [option_list app] in Hp.
    rewrite fmap_app, Hp, (HF Hok). cbn [fmap list_fmap]. solve_Permutation.
  - pose proof (omap_insert_perm p _ _ _ WDone H) as Hp.
    rewrite p_select, p_done in Hp. cbn [option_list app] in Hp.
    rewrite Hp. exact (HF Hok).
  - pose proof (omap_insert_perm p _ _ _ WDone H) as Hp.
    rewrite p_select, p_done in Hp. cbn [option_list app] in Hp.
    rewrite Hp. exact (HF Hok).
  - pose proof (omap_insert_perm p _ _ _ (scan_step c job rest e wordCount) H) as Hp.
    rewrite (p_scan _ _ _ _ _ Hok) in Hp.
    apply Permutation_app_inv_l in Hp. rewrite Hp. exact (HF Hok).
  - pose proof (omap_insert_perm p _ _ _ WSelect H) as Hp.
    rewrite p_select, p_send in Hp. cbn [option_list app] in Hp.
    rewrite fmap_app, (HF Hok). cbn [fmap list_fmap]. rewrite <- Hp. solve_Permutation.
  - apply HF. eapply ok_cancel, Hok.
Qed.

Lemma Reach_Flight tr s : Reach tr s -> Flight tr s.
Proof.
  induction 1 as [|tr s l e s' _ IH Hs].
  - intros _. reflexivity.
  - eapply Flight_step; [exact IH|]. eapply step_Step, Hs.
Qed.

End Flight.

(** The files of the jobs taken so far are those of the results sent and
    of the busy workers, cancelled or not. *)
Lemma Reach_paths tr s :
  Reach tr s ->
  FilePath <$> dequeued tr ≡ₚ (rFilePath <$> emitted tr) ++ omap in_flight (workers s).
Proof.
  intros HR.
  apply (Reach_Flight FilePath rFilePath in_flight (fun _ => True)); auto.
  - intros job. unfold open_job. destruct (fs (FilePath job)); reflexivity.
  - intros c job rest e n _. unfold scan_step. destruct rest as [|line rest].
    + destruct e; reflexivity.
    + unfold scan_body. destruct c; reflexivity.
Qed.

(** While the context is open, the results sent and the results the busy
    workers are heading for are those of [CountWord] on the jobs taken. *)
Lemma Reach_counts tr s :
  Reach tr s -> ctx s = None ->
  CountWord fs Background <$> dequeued tr ≡ₚ emitted tr ++ omap pending (workers s).
Proof.
  intros HR Hc.
  assert (HF : Flight (CountWord fs Background) id pending (fun c => c = None) tr s).
  { apply Reach_Flight; auto.
    - intros job. unfold open_job, CountWord. destruct (fs (FilePath job)); reflexivity.
    - intros c job rest e n ->. unfold scan_step. destruct rest as [|line rest]; reflexivity. }
  specialize (HF Hc). rewrite list_fmap_id in HF. exact HF.
Qed.

End Run.

(** *** Termination and what [main] receives *)

Section Progress.
Variable fs : FileSystem.
Variable fp : FileProcessor.
Local Abbreviation step := (Pipeline.step fs fp).
Local Abbreviation Step := (Pipeline.Step fs fp).
Local Abbreviation Reach := (Pipeline.Reach fs fp).
Local Abbreviation exec := (Pipeline.exec fs fp).
Local Abbreviation init := (Pipeline.init fp).
Local Abbreviation job_of := (Pipeline.job_of fp).
Local Abbreviation Inv := (Pipeline_facts.Inv fp).
Local Abbreviation measure := (Pipeline.measure fs fp).
Local Abbreviation all_jobs := (Pipeline_facts.all_jobs fp).
Local Abbreviation pool := (Pipeline_facts.pool fp).

Lemma elem_of_insert_inv {A : Type} (ws : list A) (w : nat) (new x : A) :
  x ∈ <[w := new]> ws -> x = new \/ x ∈ ws.
Proof.
  intros H. apply list_elem_of_lookup in H as [i Hi].
  destruct (decide (w = i)) as [->|Hne].
  - destruct (decide (i < length ws)%nat) as [Hlt|Hge].
    + rewrite list_lookup_insert_eq in Hi by exact Hlt. left. congruence.
    + rewrite list_insert_ge in Hi by lia. right. eapply list_elem_of_lookup_2, Hi.
  - rewrite list_lookup_insert_ne in Hi by exact Hne.
    right. eapply list_elem_of_lookup_2, Hi.
Qed.

(** While the context is open, a worker returns only from a closed and
    empty job queue. *)
Lemma Reach_drained tr s :
  Reach tr s -> ctx s = None -> WDone ∈ workers s ->
  closed (jobs s) = true /\ buf (jobs s) = [].
Proof.
  induction 1 as [|tr s l e s' HR IH Hs].
  - intros _ H. cbn in H. apply elem_of_nil in H. destruct H.
  - apply Reach_Inv in HR as HI. apply step_Step in Hs.
    destruct HI. destruct Hs; proj_simpl_all;
      cbn [jobs_closed_at] in *; intros Hc Hd; try discriminate;
      try (exact (IH Hc Hd)).
    + apply elem_of_app in Hd as [Hd|Hd].
      * destruct (IH Hc Hd) as [? _]. congruence.
      * apply list_elem_of_singleton in Hd. discriminate.
    + destruct (IH Hc Hd) as [? _]. discriminate.
    + destruct (IH Hc Hd) as [? _]. congruence.
    + apply elem_of_insert_inv in Hd as [Hd|Hd].
      * pose proof (is_live_open_job fs job) as Hl. rewrite <- Hd in Hl. discriminate.
      * destruct (IH Hc Hd) as [_ ?]. discriminate.
    + split; reflexivity.
    + apply elem_of_insert_inv in Hd as [Hd|Hd].
      * pose proof (is_live_scan_step c job rest e wordCount) as Hl.
        rewrite <- Hd in Hl. discriminate.
      * exact (IH Hc Hd).
    + apply elem_of_insert_inv in Hd as [Hd|Hd]; [discriminate|].
      exact (IH Hc Hd).
Qed.

(** *** Every step uses up the measure *)

Lemma worker_cost_insert (ws : list Worker) (w : nat) (old new : Worker) :
  ws !! w = Some old ->
  (sum_list_with worker_cost (<[w := new]> ws) + worker_cost old
   = sum_list_with worker_cost ws + worker_cost new)%nat.
Proof.
  intros H. destruct (insert_split _ _ _ H) as (l1 & l2 & Hws & _ & Hins).
  rewrite Hins, Hws, !sum_list_with_app. cbn [sum_list_with]. lia.
Qed.

Lemma worker_cost_open_job (job : Job) :
  worker_cost (open_job fs job) = S (job_cost fs job).
Proof.
  unfold open_job, job_cost. destruct (fs (FilePath job)); cbn [worker_cost]; lia.
Qed.

Lemma worker_cost_scan_step c job rest e n :
  (worker_cost (scan_step c job rest e n) < worker_cost (WScan job rest e n))%nat.
Proof.
  unfold scan_step. destruct rest as [|line rest]; cbn [worker_cost length]; [lia|].
  destruct (scan_body c job line n); cbn [worker_cost]; lia.
Qed.

Lemma Step_measure s e s' : Step s e s' -> (measure s' < measure s)%nat.
Proof.
  intros HS. unfold Pipeline.measure.
  destruct HS; proj_simpl; cbn [main_cost]; try lia.
  - rewrite sum_list_with_app. cbn [sum_list_with worker_cost].
    replace (Z.to_nat (WorkerCount fp - i)) with (S (Z.to_nat (WorkerCount fp - (i + 1))))
      by lia.
    lia.
  - unfold feed_cost, queue_cost. rewrite sum_list_with_app.
    cbn [sum_list_with]. lia.
  - unfold feed_cost. cbn [sum_list_with close buf]. lia.
  - pose proof (worker_cost_insert _ _ _ (open_job fs job) H) as Hw.
    rewrite worker_cost_open_job in Hw. cbn [worker_cost] in Hw.
    unfold queue_cost. cbn [sum_list_with]. fold (queue_cost fs jb). lia.
  - pose proof (worker_cost_insert _ _ _ WDone H) as Hw. cbn [worker_cost] in Hw. lia.
  - pose proof (worker_cost_insert _ _ _ WDone H) as Hw. cbn [worker_cost] in Hw. lia.
  - pose proof (worker_cost_insert _ _ _ (scan_step c job rest e wordCount) H) as Hw.
    pose proof (worker_cost_scan_step c job rest e wordCount). lia.
  - pose proof (worker_cost_insert _ _ _ WSelect H) as Hw. cbn [worker_cost] in Hw. lia.
Qed.

(** No schedule is longer than the measure of the state it starts from. *)
Lemma exec_bounded (ls : list Label) (s : State) (tr : list Event) (s' : State) :
  exec ls s = Some (tr, s') -> (length ls + measure s' <= measure s)%nat.
Proof.
  revert s tr. induction ls as [|l ls IH]; intros s tr; cbn [Pipeline.exec length].
  - intros [= _ <-]. lia.
  - destruct (step l s) as [[e s1]|] eqn:Hs; [|discriminate].
    destruct (exec ls s1) as [[tr1 s2]|] eqn:He; [|discriminate].
    intros [= _ <-]. apply IH in He. apply step_Step, Step_measure in Hs. lia.
Qed.

(** *** Some goroutine can always move until [ProcessFiles] returns *)

Lemma live_lookup (ws : list Worker) :
  live ws <> [] -> exists w x, ws !! w = Some x /\ is_live x = true.
Proof.
  induction ws as [|x ws IH]; cbn [live List.filter]; [congruence|].
  destruct (is_live x) eqn:E.
  - intros _. exists 0%nat, x. split; [reflexivity|exact E].
  - intros H. destruct (IH H) as (w & y & Hw & Hy). exists (S w), y. split; assumption.
Qed.

Lemma in_flight_lookup (ws : list Worker) (w : nat) (r : Result) :
  ws !! w = Some (WSend r) -> (1 <= length (omap in_flight ws))%nat.
Proof.
  intros H. destruct (insert_split _ _ _ H) as (l1 & l2 & Hws & _ & _).
  rewrite Hws, omap_app, length_app. cbn. lia.
Qed.

Lemma progress tr s :
  Reach tr s -> main s <> DReturn ->
  exists l, l ∈ labels s /\ is_Some (step l s).
Proof.
  intros HR Hm. pose proof (Reach_Inv _ _ _ _ HR) as HI.
  pose proof (Reach_paths _ _ _ _ HR) as HP. apply Permutation_length in HP.
  rewrite length_app, !length_fmap in HP.
  destruct HI. destruct s as [j r g c m ws p]. proj_simpl_all. subst p.
  assert (HL : LMain ∈ labels (mkState j r g c m ws false)) by (apply list_elem_of_here).
  assert (Hlen : (length (dequeued tr) + length (buf j)
                  + length (to_feed fp m) = length (Files fp))%nat).
  { apply (f_equal length) in inv_queue0, inv_fed0. unfold Pipeline_facts.all_jobs in inv_fed0.
    rewrite !length_app, ?length_fmap in *. lia. }
  destruct m as [i|[|f rest]| | |]; cbn [to_feed jobs_closed_at results_closed_at] in *;
    try congruence.
  - exists LMain. split; [exact HL|]. unfold Pipeline.step, step_main. proj_simpl.
    destruct (i <? WorkerCount fp); eexists; reflexivity.
  - exists LMain. split; [exact HL|]. unfold Pipeline.step, step_main, close. proj_simpl.
    rewrite inv_jobs_closed0. eexists. reflexivity.
  - exists LMain. split; [exact HL|]. unfold Pipeline.step, step_main, send. proj_simpl.
    rewrite inv_jobs_closed0, inv_jobs_cap0.
    destruct (Nat.ltb_spec (length (buf j)) (length (Files fp))) as [_|Hge];
      [eexists; reflexivity|]. cbn [length] in Hlen. lia.
  - destruct (decide (g = 0)) as [->|Hg].
    + exists LMain. split; [exact HL|]. eexists. reflexivity.
    + assert (Hlive : live ws <> []) by (intros E; rewrite E in inv_wg0; cbn in inv_wg0; lia).
      destruct (live_lookup _ Hlive) as (w & x & Hw & Hx).
      exists (LWorker w). split.
      * unfold labels. proj_simpl. apply list_elem_of_further, list_elem_of_bind.
        exists w. split; [apply list_elem_of_here|].
        apply elem_of_seq. apply lookup_lt_Some in Hw. lia.
      * unfold Pipeline.step, step_worker. proj_simpl. rewrite Hw.
        destruct x as [|job rest e n|res|]; try discriminate.
        -- unfold recv, exit_worker. proj_simpl. rewrite inv_jobs_closed0.
           destruct (buf j); [destruct (wg_done g)|]; eexists; reflexivity.
        -- eexists. reflexivity.
        -- unfold send. rewrite inv_results_closed0, inv_results_cap0.
           apply in_flight_lookup in Hw. rewrite inv_results0.
           destruct (Nat.ltb_spec (length (emitted tr)) (length (Files fp))) as [_|Hge];
             [eexists; reflexivity|]. lia.
  - exists LMain. split; [exact HL|]. unfold Pipeline.step, step_main, close. proj_simpl.
    rewrite inv_results_closed0. eexists. reflexivity.
Qed.


Local Abbreviation run := (Pipeline.run fs fp).
Local Abbreviation first_enabled := (Pipeline.first_enabled fs fp).

Lemma first_enabled_Some s e s' :
  first_enabled s = Some (e, s') ->
  exists l, l ∈ labels s /\ step l s = Some (e, s').
Proof.
  unfold Pipeline.first_enabled.
  destruct (list_find _ _) as [[i o]|] eqn:E; [|discriminate].
  cbn. intros ->. apply list_find_Some in E as (Hi & _ & _).
  rewrite list_lookup_fmap in Hi.
  destruct (labels s !! i) as [l|] eqn:El; [|discriminate].
  cbn in Hi. exists l. split; [eapply list_elem_of_lookup_2, El|congruence].
Qed.

Lemma first_enabled_None s l :
  first_enabled s = None -> l ∈ labels s -> step l s = None.
Proof.
  unfold Pipeline.first_enabled.
  destruct (list_find _ _) as [[i o]|] eqn:E.
  - apply list_find_Some in E as (_ & [x ->] & _). discriminate.
  - intros _ Hl. apply list_find_None in E.
    rewrite Forall_forall in E. specialize (E (step l s)).
    destruct (step l s) as [x|] eqn:Hx; [|reflexivity].
    exfalso. apply E; [|eexists; reflexivity].
    apply list_elem_of_fmap. exists l. split; [symmetry; exact Hx|exact Hl].
Qed.

Lemma labels_not_cancel s l e s' :
  l ∈ labels s -> step l s = Some (e, s') -> is_cancel e = false.
Proof.
  intros Hl Hs. assert (Hn : forall err, l <> LCancel err).
  { intros err ->. unfold labels in Hl. apply elem_of_cons in Hl as [?|Hl]; [discriminate|].
    apply list_elem_of_bind in Hl as (w & Hl & _).
    apply elem_of_cons in Hl as [?|Hl]; [discriminate|].
    apply list_elem_of_singleton in Hl. discriminate. }
  apply step_Step in Hs as HS. destruct HS; try reflexivity.
  exfalso. unfold Pipeline.step in Hs. proj_simpl_all.
  destruct l as [|w|w|err']; [| | |eapply Hn; reflexivity].
  - unfold step_main in Hs. proj_simpl_all.
    repeat case_match; simplify_eq.
  - unfold step_worker, exit_worker in Hs. proj_simpl_all.
    repeat case_match; simplify_eq.
  - unfold step_worker_done, exit_worker in Hs. proj_simpl_all.
    repeat case_match; simplify_eq.
Qed.

Lemma Inv_measure_pos tr s : Inv tr s -> (1 <= measure s)%nat.
Proof.
  intros []. unfold Pipeline.measure. rewrite inv_panicked0. lia.
Qed.

(** Left alone by cancellation, [ProcessFiles] returns: the scheduler
    [run] gets there within [measure] steps from any state reached. *)
Lemma run_completes (fuel : nat) (tr : list Event) (s : State) :
  Reach tr s -> (measure s <= fuel)%nat ->
  exists tr' s', run fuel s = (tr', s') /\ Reach (tr ++ tr') s'
                 /\ main s' = DReturn /\ cancelled_in tr' = false.
Proof.
  revert tr s. induction fuel as [|fuel IH]; intros tr s HR Hm.
  - apply Reach_Inv, Inv_measure_pos in HR. lia.
  - cbn [Pipeline.run]. destruct (first_enabled s) as [[e s1]|] eqn:E.
    + apply first_enabled_Some in E as (l & Hl & Hs).
      pose proof (labels_not_cancel _ _ _ _ Hl Hs) as Hc.
      pose proof (Reach_step _ _ _ _ _ _ _ HR Hs) as HR1.
      apply step_Step, Step_measure in Hs.
      destruct (IH _ _ HR1 ltac:(lia)) as (tr' & s' & Hrun & HR' & Hret & Hcan).
      exists (e :: tr'), s'. rewrite Hrun. repeat split; try assumption.
      * rewrite <- app_assoc in HR'. exact HR'.
      * cbn. rewrite Hc. exact Hcan.
    + exists [], s. rewrite app_nil_r. repeat split; try assumption.
      assert (main s = DReturn \/ main s <> DReturn) as [|Hn]
        by (destruct (main s); auto; right; discriminate); [assumption|].
      destruct (progress _ _ HR Hn) as (l & Hl & [x Hx]).
      rewrite (first_enabled_None _ _ E Hl) in Hx. discriminate.
Qed.

(** *** What [main] finds after [ProcessFiles] has returned *)

Lemma omap_pending_done (ws : list Worker) : live ws = [] -> omap pending ws = [].
Proof.
  induction ws as [|x ws IH]; [reflexivity|].
  cbn [live List.filter]. destruct x; cbn [is_live]; try discriminate.
  exact IH.
Qed.

Lemma omap_in_flight_done (ws : list Worker) : live ws = [] -> omap in_flight ws = [].
Proof.
  induction ws as [|x ws IH]; [reflexivity|].
  cbn [live List.filter]. destruct x; cbn [is_live]; try discriminate.
  exact IH.
Qed.

(** The pool is large enough for the files: at least one worker, or
    nothing to do. *)
Definition staffed : Prop := 1 <= WorkerCount fp \/ Files fp = [].

Lemma returned_all_taken tr s :
  Reach tr s -> main s = DReturn -> ctx s = None -> staffed ->
  dequeued tr = all_jobs /\ buf (jobs s) = [].
Proof.
  intros HR Hm Hc Hst. pose proof (Reach_Inv _ _ _ _ HR) as HI.
  destruct HI. rewrite Hm in *. cbn [to_feed waited_at fmap list_fmap] in *.
  rewrite app_nil_r in inv_fed0. rewrite inv_fed0 in inv_queue0.
  destruct Hst as [Hw|Hf].
  - assert (Hd : WDone ∈ workers s).
    { destruct (workers s) as [|x ws] eqn:Ews.
      - unfold Pipeline_facts.pool in inv_pool0. cbn in inv_pool0. lia.
      - specialize (inv_waited0 eq_refl).
        pose proof (live_nil_lookup (x :: ws) 0 x inv_waited0 eq_refl) as ->.
        apply list_elem_of_here. }
    destruct (Reach_drained _ _ HR Hc Hd) as [_ Hb].
    rewrite Hb, app_nil_r in inv_queue0. split; assumption.
  - unfold Pipeline_facts.all_jobs in *. rewrite Hf in *. cbn [fmap list_fmap] in *.
    apply app_eq_nil in inv_queue0. exact inv_queue0.
Qed.

Lemma returned_results tr s :
  Reach tr s -> main s = DReturn -> ctx s = None -> staffed ->
  received s ≡ₚ CountWord fs Background <$> all_jobs.
Proof.
  intros HR Hm Hc Hst.
  destruct (returned_all_taken _ _ HR Hm Hc Hst) as [Hd _].
  pose proof (Reach_counts _ _ _ _ HR Hc) as HP.
  pose proof (Reach_Inv _ _ _ _ HR) as HI. destruct HI.
  rewrite Hm in *. specialize (inv_waited0 eq_refl).
  rewrite (omap_pending_done _ inv_waited0), app_nil_r, Hd in HP.
  unfold received. rewrite inv_results0. symmetry. exact HP.
Qed.

Lemma returned_paths tr s :
  Reach tr s -> main s = DReturn ->
  rFilePath <$> received s ≡ₚ FilePath <$> dequeued tr.
Proof.
  intros HR Hm. pose proof (Reach_paths _ _ _ _ HR) as HP.
  pose proof (Reach_Inv _ _ _ _ HR) as HI. destruct HI.
  rewrite Hm in *. specialize (inv_waited0 eq_refl).
  rewrite (omap_in_flight_done _ inv_waited0), app_nil_r in HP.
  unfold received. rewrite inv_results0. symmetry. exact HP.
Qed.

End Progress.

(** *** The jobs fed and the empty pool *)

Section Feeding.
Variable fs : FileSystem.
Variable fp : FileProcessor.

(** With no worker, no job is taken and no result is sent. *)
Lemma Reach_no_workers tr s :
  Reach fs fp tr s -> workers s = [] -> dequeued tr = [] /\ emitted tr = [].
Proof.
  induction 1 as [|tr s l e s' HR IH Hs]; [split; reflexivity|].
  apply step_Step in Hs.
  destruct Hs; proj_simpl_all; intros Hw; snoc_simpl;
    try (exact (IH Hw));
    try (exfalso; apply (f_equal length) in Hw; rewrite length_insert in Hw;
         apply lookup_lt_Some in H; cbn [length] in Hw; lia).
  apply app_eq_nil in Hw as [_ ?]. discriminate.
Qed.

Lemma Reach_pool_empty tr s :
  Reach fs fp tr s -> WorkerCount fp <= 0 -> workers s = [].
Proof.
  intros HR Hw. destruct (Reach_Inv _ _ _ _ HR).
  apply nil_length_inv. destruct (main s); unfold pool in *; lia.
Qed.

(** The jobs enqueued so far are the first files of the list, in order,
    each with the word of the processor. *)
Lemma Reach_enqueued tr s :
  Reach fs fp tr s -> exists k, enqueued tr = job_of fp <$> take k (Files fp).
Proof.
  intros HR. destruct (Reach_Inv _ _ _ _ HR).
  exists (length (enqueued tr)). unfold all_jobs in inv_fed0.
  rewrite fmap_take, <- inv_fed0, take_app_length. reflexivity.
Qed.

(** The steps of the goroutine of [ProcessFiles], at any point of a run,
    are the first steps of its whole course. *)
Lemma Reach_main_prefix tr s :
  Reach fs fp tr s -> main_events tr `prefix_of` main_trace fp DReturn (all_jobs fp).
Proof.
  intros HR. destruct (Reach_Inv _ _ _ _ HR).
  rewrite inv_main_events0. rewrite <- inv_fed0.
  unfold main_trace. destruct (main s) as [i| rest | | |]; cbn [to_feed] in *.
  - destruct inv_pool0 as (Hi & _ & _).
    exists ((ESpawn <$> seq (Z.to_nat i) (pool fp - Z.to_nat i)) ++ ESpawned
            :: (EEnqueue <$> enqueued tr ++ (job_of fp <$> Files fp))
            ++ [ECloseJobs; EWaited; ECloseResults]).
    rewrite app_assoc. f_equal. unfold spawn_events. rewrite <- fmap_app. f_equal.
    replace (pool fp) with (Z.to_nat i + (pool fp - Z.to_nat i))%nat at 1
      by (unfold pool; lia).
    apply seq_app.
  - exists ((EEnqueue <$> (job_of fp <$> rest)) ++ [ECloseJobs; EWaited; ECloseResults]).
    rewrite fmap_app. rewrite <- !app_assoc. reflexivity.
  - exists [EWaited; ECloseResults]. cbn [fmap list_fmap]. rewrite app_nil_r.
    rewrite <- !app_assoc. cbn [app]. rewrite <- !app_assoc. reflexivity.
  - exists [ECloseResults]. cbn [fmap list_fmap]. rewrite app_nil_r.
    rewrite <- !app_assoc. cbn [app]. rewrite <- !app_assoc. reflexivity.
  - exists []. cbn [fmap list_fmap]. rewrite !app_nil_r. reflexivity.
Qed.

End Feeding.
(** *** Each worker and its own jobs *)

Lemma taken_by_snoc w tr e : taken_by w (tr ++ [e]) = taken_by w tr ++ taken_by w [e].
Proof. apply omap_app. Qed.
Lemma sent_by_snoc w tr e : sent_by w (tr ++ [e]) = sent_by w tr ++ sent_by w [e].
Proof. apply omap_app. Qed.

Section Own.
Variable fs : FileSystem.
Variable fp : FileProcessor.

(** Each worker sends the results of the jobs it has received itself, in
    the order it received them; the last one may still be in its hands. *)
Definition Own (w : nat) (tr : list Event) (s : State) : Prop :=
  FilePath <$> taken_by w tr
  = (rFilePath <$> sent_by w tr) ++ option_list (workers s !! w ≫= in_flight).

Lemma in_flight_open_job (job : Job) : in_flight (open_job fs job) = Some (FilePath job).
Proof. unfold open_job. destruct (fs (FilePath job)); reflexivity. Qed.

Lemma in_flight_scan_step c job rest e n :
  in_flight (scan_step c job rest e n) = Some (FilePath job).
Proof.
  unfold scan_step. destruct rest as [|line rest]; [destruct e; reflexivity|].
  unfold scan_body. destruct c; reflexivity.
Qed.

Ltac own_worker w w0 H :=
  destruct (decide (w0 = w)) as [->|Hne];
  [ rewrite ?Nat.eqb_refl; rewrite list_lookup_insert_eq by (eapply lookup_lt_Some, H)
  | rewrite ?(proj2 (Nat.eqb_neq _ _)) by congruence;
    rewrite list_lookup_insert_ne by congruence ].

Lemma Own_step w tr s e s' :
  Own w tr s -> Step fs fp s e s' -> Own w (tr ++ [e]) s'.
Proof.
  unfold Own. intros HO HS.
  destruct HS; proj_simpl_all; rewrite taken_by_snoc, sent_by_snoc;
    cbn [taken_by sent_by omap list_omap]; rewrite ?app_nil_r; try exact HO.
  - (* spawn *)
    destruct (decide (w < length ws)%nat) as [Hlt|Hge].
    + rewrite lookup_app_l by exact Hlt. exact HO.
    + rewrite lookup_ge_None_2 in HO by lia. rewrite HO.
      destruct (decide (w = length ws)) as [->|Hne].
      * rewrite list_lookup_middle by reflexivity. reflexivity.
      * rewrite lookup_ge_None_2 by (rewrite length_app; cbn; lia). reflexivity.
  - (* dequeue *)
    own_worker w w0 H.
    + rewrite H in HO. cbn in HO. rewrite app_nil_r in HO.
      rewrite fmap_app, HO. cbn. rewrite in_flight_open_job. reflexivity.
    + rewrite app_nil_r. exact HO.
  - own_worker w w0 H.
    + rewrite H in HO. exact HO.
    + exact HO.
  - own_worker w w0 H.
    + rewrite H in HO. exact HO.
    + exact HO.
  - (* scan *)
    own_worker w w0 H.
    + rewrite H in HO. cbn. rewrite in_flight_scan_step. exact HO.
    + exact HO.
  - (* emit *)
    own_worker w w0 H.
    + rewrite H in HO. cbn in HO. rewrite app_nil_r. rewrite HO, fmap_app. reflexivity.
    + rewrite app_nil_r. exact HO.
Qed.

Lemma Reach_Own w tr s : Reach fs fp tr s -> Own w tr s.
Proof.
  induction 1 as [|tr s l e s' _ IH Hs].
  - reflexivity.
  - eapply Own_step; [exact IH|]. eapply step_Step, Hs.
Qed.

Lemma returned_own w tr s :
  Reach fs fp tr s -> main s = DReturn ->
  rFilePath <$> sent_by w tr = FilePath <$> taken_by w tr.
Proof.
  intros HR Hm. pose proof (Reach_Own w _ _ HR) as HO. unfold Own in HO.
  pose proof (Reach_Inv _ _ _ _ HR) as HI. destruct HI.
  rewrite Hm in inv_waited0. specialize (inv_waited0 eq_refl).
  destruct (workers s !! w) as [x|] eqn:E.
  - apply (live_nil_lookup _ _ _ inv_waited0) in E. subst x.
    cbn in HO. rewrite app_nil_r in HO. symmetry. exact HO.
  - cbn in HO. rewrite app_nil_r in HO. symmetry. exact HO.
Qed.
End Own.

End Pipeline_facts.

(** * The claims of the specification *)

Local Open Scope string_scope.

(** ** The claims about [CountWord] *)

(** The file of the spec's example. *)
Definition sample_file : File :=
  mkFile ["go is fun"; "I go home"; "going going"] AtEOF.

Definition sample_fs : FileSystem :=
  fun path =>
    if String.eqb path "./sample1.txt" then OpenOk sample_file
    else if String.eqb path "./broken.txt"
         then OpenOk (mkFile ["go go"; "go"] (ReadError (PathError "read" path "input/output error")))
    else OpenErr (PathError "open" path "no such file or directory").

(** C1. For a file that opens and is scanned to end-of-file with no read
    error, under a context that stays open for the whole scan, [CountWord]
    returns a [Result] with the job's path, a nil error, and as count the
    sum over the lines of [strings.Count line word]; for a word that is
    not empty that is, on each line, the number of non-overlapping
    occurrences of the word.  The sum is supposed to fit Go's [int]: it is
    at most the number of bytes of the lines plus one per line
    ([total_count_bounds]). *)
Theorem CountWord_total (fs : FileSystem) (ctx : Context) (job : Job) (f : File) :
  fs (FilePath job) = OpenOk f ->
  file_end f = AtEOF ->
  stays_open ctx (length (file_lines f)) = true ->
  total_count (Word job) (file_lines f) <= int_max ->
  CountWord fs ctx job
  = mkResult (FilePath job) (total_count (Word job) (file_lines f)) None
  /\ (Word job <> "" ->
      Forall (fun line => occurrence_count line (Word job) (strings.Count line (Word job)))
             (file_lines f)).
Proof.
  intros Hopen Hend Hctx Hmax. split.
  - unfold CountWord. rewrite Hopen.
    change 0 with (wrap_int 0) at 1.
    rewrite (scan_loop_open ctx job (file_lines f) (file_end f) 0 Hctx), Hend.
    cbn [scan_exit]. unfold count_result. f_equal.
    apply wrap_int_small. pose proof (total_count_bounds (Word job) (file_lines f)).
    unfold int_min. lia.
  - intros Hw. apply Forall_forall. intros line _.
    apply strings_facts.Count_occurrences, Hw.
Qed.

(** The example of the spec: three lines, the word "go", count 4. *)
Lemma CountWord_total_witness :
  CountWord sample_fs Background (mkJob "./sample1.txt" "go")
  = mkResult "./sample1.txt" 4 None.
Proof.
  destruct (CountWord_total sample_fs Background (mkJob "./sample1.txt" "go") sample_file)
    as [H _]; [reflexivity | reflexivity | reflexivity | vm_compute; discriminate |].
  exact H.
Defined.

(** C4. [CountWord] polls the context before each line.  When the poll
    before some line of the file finds the context done, the scan stops
    there and the [Result] carries the job's path, [ctx.Err()] and the
    count 0, whatever had been counted on the lines before. *)
Theorem CountWord_cancelled (fs : FileSystem) (ctx : Context) (job : Job)
    (f : File) (k : nat) :
  fs (FilePath job) = OpenOk f ->
  ctx_open ctx = Some k ->
  (k < length (file_lines f))%nat ->
  CountWord fs ctx job = mkResult (FilePath job) 0 (Some (ctx_error ctx)).
Proof.
  intros Hopen Hk Hlt. unfold CountWord. rewrite Hopen.
  apply (scan_loop_cancelled ctx job (file_lines f) (file_end f) 0 k Hk Hlt).
Qed.

(** Cancelled after two lines with two occurrences counted: count 0. *)
Lemma CountWord_cancelled_witness :
  CountWord sample_fs (cancelled_after 2) (mkJob "./sample1.txt" "go")
  = mkResult "./sample1.txt" 0 (Some Canceled).
Proof.
  apply (CountWord_cancelled sample_fs (cancelled_after 2) (mkJob "./sample1.txt" "go")
           sample_file 2%nat); [reflexivity | reflexivity | simpl; lia].
Defined.

(** C10. On every exit path of [CountWord] the [Result] names the file
    of the job. *)
Theorem CountWord_FilePath (fs : FileSystem) (ctx : Context) (job : Job) :
  rFilePath (CountWord fs ctx job) = FilePath job.
Proof. apply CountWord_rFilePath. Qed.

(** ** The claims about [LoadConfig] *)

(** C9. [LoadConfig] returns a nil error whatever the configuration
    sources hold: an error of [viper.ReadInConfig] is printed and nothing
    else, the values found (or the defaults) go into the processor
    unchecked, and [main] always goes on to [ProcessFiles].  With the
    configuration file unreadable and no environment variable set, the
    processor holds the defaults. *)
Theorem LoadConfig_never_fails (v : Config.Viper) :
  snd (Config.LoadConfig v) = None
  /\ Config.main_start v = Config.Process (snd (fst (Config.LoadConfig v)))
  /\ fst (fst (Config.LoadConfig v))
     = (match Config.ReadInConfig v with
        | Some err => [Config.PrintReadError err]
        | None => []
        end
        ++ [Config.PrintFiles (Files (snd (fst (Config.LoadConfig v))));
            Config.PrintWord (fpWord (snd (fst (Config.LoadConfig v))));
            Config.PrintWorker (WorkerCount (snd (fst (Config.LoadConfig v))))])%list
  /\ fpWord (snd (fst (Config.LoadConfig v)))
     = Config.get (Config.found_word v) Config.default_word
  /\ WorkerCount (snd (fst (Config.LoadConfig v)))
     = Config.get (Config.found_workerCount v) Config.default_workerCount
  /\ (forall err : string,
        Config.LoadConfig (Config.mkViper (Some err) None None None)
        = ([Config.PrintReadError err; Config.PrintFiles ["./sample1.txt"];
            Config.PrintWord "go"; Config.PrintWorker 1],
           NewFileProcessor ["./sample1.txt"] "go" 1, None)).
Proof. repeat split; reflexivity. Qed.

(** ** The claims about the run *)

Import Pipeline Pipeline_facts.

(** The order of the steps of [ProcessFiles]. *)
Definition protocol (fp : FileProcessor) : list Event :=
  main_trace fp DReturn (all_jobs fp).

(** C6. [ProcessFiles] makes the job queue and the result channel with
    the number of files as capacity.  At every point of every run, the
    steps its goroutine has taken are the start of: spawn
    [max 0 WorkerCount] workers, enqueue one job per file in the order of
    the list, close the job queue, return from [wg.Wait()], close the
    result channel.  [wg.Wait()] returns only when every worker has
    returned, so the result channel is closed after that. *)
Theorem ProcessFiles_protocol (fs : FileSystem) (fp : FileProcessor) :
  jobs (init fp) = make (length (Files fp))
  /\ results (init fp) = make (length (Files fp))
  /\ protocol fp
     = ((ESpawn <$> seq 0 (Z.to_nat (WorkerCount fp))) ++ ESpawned
        :: (EEnqueue <$> (job_of fp <$> Files fp))
        ++ [ECloseJobs; EWaited; ECloseResults])%list
  /\ forall (ls : list Label) (tr : list Event) (s : State),
       exec fs fp ls (init fp) = Some (tr, s) ->
       cap (jobs s) = length (Files fp)
       /\ cap (results s) = length (Files fp)
       /\ main_events tr `prefix_of` protocol fp
       /\ main_events tr = main_trace fp (main s) (enqueued tr)
       /\ (enqueued tr ++ (job_of fp <$> to_feed fp (main s)))%list = job_of fp <$> Files fp
       /\ wg s = Z.of_nat (length (live (workers s)))
       /\ (waited_at (main s) = true -> live (workers s) = [])
       /\ closed (jobs s) = jobs_closed_at (main s)
       /\ closed (results s) = results_closed_at (main s)
       /\ (main s = DReturn ->
           main_events tr = protocol fp
           /\ length (workers s) = Z.to_nat (WorkerCount fp)
           /\ live (workers s) = []).
Proof.
  split; [reflexivity|]. split; [reflexivity|]. split; [reflexivity|].
  intros ls tr s H. apply exec_init_Reach in H.
  pose proof (Reach_main_prefix fs fp tr s H) as Hpre.
  apply Reach_Inv in H. destruct H.
  do 2 (split; [assumption|]). split; [exact Hpre|].
  do 6 (split; [assumption|]).
  intros Hm. rewrite Hm in *. cbn [to_feed fmap list_fmap] in inv_fed0.
  rewrite app_nil_r in inv_fed0. split; [|split].
  - rewrite inv_main_events0. unfold protocol. f_equal. exact inv_fed0.
  - exact inv_pool0.
  - apply inv_waited0. reflexivity.
Qed.

(** A run of three files on two workers: one file is read to its end,
    one does not exist, one fails while it is read. *)
Definition demo_fp : FileProcessor :=
  NewFileProcessor ["./sample1.txt"; "./missing.txt"; "./broken.txt"] "go" 2.

Definition demo_schedule : list Label :=
  [LMain; LMain; LMain; LMain; LWorker 0; LMain; LWorker 1; LWorker 0; LWorker 1;
   LMain; LWorker 1; LWorker 0; LMain; LWorker 1; LWorker 0; LWorker 1; LWorker 0;
   LWorker 1; LWorker 0; LWorker 1; LWorker 0; LWorker 1; LMain; LMain].

(** A run of the same files on one worker, cancelled during the first scan. *)
Definition cancelled_fp : FileProcessor :=
  NewFileProcessor ["./sample1.txt"; "./missing.txt"; "./broken.txt"] "go" 1.

Definition cancelled_schedule : list Label :=
  [LMain; LMain; LMain; LWorker 0; LMain; LMain; LMain; LWorker 0; LCancel Canceled;
   LWorker 0; LWorker 0; LWorkerDone 0; LMain; LMain].

Lemma exec_not_cancelled (fs : FileSystem) (fp : FileProcessor) (ls : list Label)
    (tr : list Event) (s : State) :
  exec fs fp ls (init fp) = Some (tr, s) -> cancelled_in tr = false -> ctx s = None.
Proof.
  intros H Hc. apply exec_init_Reach, Reach_Inv in H. destruct H.
  apply inv_ctx0, Hc.
Qed.

(** C6 on the demo run: it follows the protocol to its end. *)
Lemma ProcessFiles_protocol_witness :
  exists (tr : list Event) (s : State),
    exec sample_fs demo_fp demo_schedule (init demo_fp) = Some (tr, s)
    /\ main_events tr
       = [ESpawn 0; ESpawn 1; ESpawned;
          EEnqueue (mkJob "./sample1.txt" "go"); EEnqueue (mkJob "./missing.txt" "go");
          EEnqueue (mkJob "./broken.txt" "go"); ECloseJobs; EWaited; ECloseResults]
    /\ length (workers s) = 2%nat
    /\ live (workers s) = [].
Proof.
  eexists. eexists. split; [vm_compute; reflexivity|].
  destruct (ProcessFiles_protocol sample_fs demo_fp) as (_ & _ & _ & H).
  specialize (H demo_schedule _ _ ltac:(vm_compute; reflexivity)).
  destruct H as (_ & _ & _ & _ & _ & _ & _ & _ & _ & H).
  exact (H eq_refl).
Defined.

(** C2. In a run that has returned, the jobs enqueued are one per file;
    each of them was received from the queue once, by one worker, or is
    still in the queue; the results sent are, file for file, those of the
    jobs received, so a job left in the queue has no result; and each
    worker has sent the results of the jobs it received itself, one for
    one and in that order.  With at least one worker and no cancellation
    every job was received, so there are as many results as files, each
    the result of [CountWord] on its job.  From any point a run left
    alone by cancellation goes on until [ProcessFiles] returns. *)
Theorem one_result_per_job (fs : FileSystem) (fp : FileProcessor)
    (ls : list Label) (tr : list Event) (s : State) :
  exec fs fp ls (init fp) = Some (tr, s) ->
  (exists (tr' : list Event) (s' : State),
      run fs fp (measure fs fp s) s = (tr', s')
      /\ Reach fs fp (tr ++ tr') s' /\ main s' = DReturn /\ cancelled_in tr' = false)
  /\ (main s = DReturn ->
      enqueued tr = job_of fp <$> Files fp
      /\ (dequeued tr ++ buf (jobs s))%list = enqueued tr
      /\ received s = emitted tr
      /\ rFilePath <$> emitted tr ≡ₚ FilePath <$> dequeued tr
      /\ (forall w : nat, rFilePath <$> sent_by w tr = FilePath <$> taken_by w tr)
      /\ (cancelled_in tr = false -> 1 <= WorkerCount fp ->
          dequeued tr = enqueued tr
          /\ length (received s) = length (Files fp)
          /\ received s ≡ₚ CountWord fs Background <$> enqueued tr)).
Proof.
  intros H. pose proof (exec_init_Reach _ _ _ _ _ H) as HR. split.
  - apply (run_completes fs fp (measure fs fp s) tr s HR). lia.
  - intros Hm. pose proof (Reach_Inv _ _ _ _ HR) as HI. destruct HI.
    pose proof (returned_paths fs fp tr s HR Hm) as HP.
    assert (He : enqueued tr = job_of fp <$> Files fp).
    { rewrite Hm in inv_fed0. cbn [to_feed fmap list_fmap] in inv_fed0.
      rewrite app_nil_r in inv_fed0. exact inv_fed0. }
    split; [exact He|]. split; [exact inv_queue0|]. split; [exact inv_results0|].
    split; [unfold received in HP; rewrite inv_results0 in HP; exact HP|].
    split; [intros w; exact (returned_own fs fp w tr s HR Hm)|].
    intros Hc Hw. pose proof (exec_not_cancelled _ _ _ _ _ H Hc) as Hctx.
    destruct (returned_all_taken fs fp tr s HR Hm Hctx (or_introl Hw)) as [Hd _].
    pose proof (returned_results fs fp tr s HR Hm Hctx (or_introl Hw)) as HRes.
    fold (all_jobs fp) in He. rewrite He, Hd. split; [reflexivity|]. split.
    + apply Permutation_length in HRes. rewrite HRes. unfold all_jobs.
      rewrite !length_fmap. reflexivity.
    + exact HRes.
Qed.

(** C2 on the cancelled run: one job was received and two were
    left in the queue; there is one result, for the job received. *)
Lemma one_result_per_job_witness :
  exists (tr : list Event) (s : State),
    exec sample_fs cancelled_fp cancelled_schedule (init cancelled_fp) = Some (tr, s)
    /\ dequeued tr = [mkJob "./sample1.txt" "go"]
    /\ buf (jobs s) = [mkJob "./missing.txt" "go"; mkJob "./broken.txt" "go"]
    /\ rFilePath <$> received s ≡ₚ ["./sample1.txt"].
Proof.
  eexists. eexists. split; [vm_compute; reflexivity|].
  destruct (one_result_per_job sample_fs cancelled_fp cancelled_schedule _ _
              ltac:(vm_compute; reflexivity)) as (_ & H).
  destruct (H eq_refl) as (_ & _ & Hr & HP & _ & _).
  split; [reflexivity|]. split; [reflexivity|].
  rewrite Hr. exact HP.
Defined.

(** C5. A file that does not open gives a [Result] with the error of
    [os.Open] and count 0; a read error that ends the scan gives a
    [Result] with that error and count 0, whatever had been counted.  The
    run goes on: with a worker in the pool and no cancellation, a run that
    has returned holds for every file the [Result] of [CountWord] on that
    file alone, and [main] prints the count line of each. *)
Theorem CountWord_errors :
  (forall (fs : FileSystem) (ctx : Context) (job : Job) (err : error),
      fs (FilePath job) = OpenErr err ->
      CountWord fs ctx job = mkResult (FilePath job) 0 (Some err))
  /\ (forall (fs : FileSystem) (ctx : Context) (job : Job) (f : File) (err : error),
        fs (FilePath job) = OpenOk f ->
        file_end f = ReadError err ->
        stays_open ctx (length (file_lines f)) = true ->
        CountWord fs ctx job = mkResult (FilePath job) 0 (Some err))
  /\ (forall (fs : FileSystem) (fp : FileProcessor) (ls : list Label)
             (tr : list Event) (s : State),
        exec fs fp ls (init fp) = Some (tr, s) ->
        main s = DReturn -> cancelled_in tr = false -> 1 <= WorkerCount fp ->
        panicked s = false
        /\ received s ≡ₚ CountWord fs Background <$> (job_of fp <$> Files fp)
        /\ Forall (fun filepath =>
                     PrintProcessed filepath
                       (WordCount (CountWord fs Background (job_of fp filepath)))
                     ∈ main_prints s)
                  (Files fp)).
Proof.
  split; [|split].
  - intros fs ctx job err Hopen. unfold CountWord. rewrite Hopen. reflexivity.
  - intros fs ctx job f err Hopen Hend Hctx. unfold CountWord. rewrite Hopen.
    change 0 with (wrap_int 0) at 1.
    rewrite (scan_loop_open ctx job (file_lines f) (file_end f) 0 Hctx), Hend.
    reflexivity.
  - intros fs fp ls tr s H Hm Hc Hw.
    pose proof (exec_not_cancelled _ _ _ _ _ H Hc) as Hctx.
    apply exec_init_Reach in H.
    pose proof (returned_results fs fp tr s H Hm Hctx (or_introl Hw)) as HP.
    split; [|split].
    + apply Reach_Inv in H. destruct H. assumption.
    + exact HP.
    + apply Forall_forall. intros filepath Hin.
      unfold main_prints. apply list_elem_of_bind.
      exists (CountWord fs Background (job_of fp filepath)). split.
      * unfold report. apply elem_of_app. right.
        rewrite CountWord_rFilePath. apply list_elem_of_here.
      * rewrite HP. unfold all_jobs.
        apply list_elem_of_fmap_2, list_elem_of_fmap_2, Hin.
Qed.

(** C5 on the demo run: it has one file that does not open and one
    that fails while read; the third file still gets its count. *)
Lemma CountWord_errors_witness :
  CountWord sample_fs Background (mkJob "./missing.txt" "go")
  = mkResult "./missing.txt" 0
      (Some (PathError "open" "./missing.txt" "no such file or directory"))
  /\ CountWord sample_fs Background (mkJob "./broken.txt" "go")
     = mkResult "./broken.txt" 0
         (Some (PathError "read" "./broken.txt" "input/output error"))
  /\ exists (tr : list Event) (s : State),
       exec sample_fs demo_fp demo_schedule (init demo_fp) = Some (tr, s)
       /\ received s
          ≡ₚ [mkResult "./sample1.txt" 4 None;
              mkResult "./missing.txt" 0
                (Some (PathError "open" "./missing.txt" "no such file or directory"));
              mkResult "./broken.txt" 0
                (Some (PathError "read" "./broken.txt" "input/output error"))].
Proof.
  destruct CountWord_errors as (H1 & H2 & H3).
  split; [|split].
  - apply (H1 sample_fs Background (mkJob "./missing.txt" "go")). reflexivity.
  - apply (H2 sample_fs Background (mkJob "./broken.txt" "go")
              (mkFile ["go go"; "go"]
                 (ReadError (PathError "read" "./broken.txt" "input/output error"))));
      reflexivity.
  - eexists. eexists. split; [vm_compute; reflexivity|].
    destruct (H3 sample_fs demo_fp demo_schedule _ _ ltac:(vm_compute; reflexivity)
                eq_refl eq_refl ltac:(simpl; lia)) as (_ & HP & _).
    exact HP.
Defined.

(** C7. Two runs on the same files, file contents and word, neither
    cancelled, each with at least one worker (or no file to process), and
    both returned, hold the same multiset of (file path, word count)
    pairs, whatever the two worker counts are; 1, 2 and the number of
    files are such counts. *)
Theorem worker_count_irrelevant (fs : FileSystem) (files : list string)
    (word : string) (n1 n2 : Z) (ls1 ls2 : list Label) (tr1 tr2 : list Event)
    (s1 s2 : State) :
  staffed (NewFileProcessor files word n1) ->
  staffed (NewFileProcessor files word n2) ->
  exec fs (NewFileProcessor files word n1) ls1 (init (NewFileProcessor files word n1))
  = Some (tr1, s1) ->
  exec fs (NewFileProcessor files word n2) ls2 (init (NewFileProcessor files word n2))
  = Some (tr2, s2) ->
  main s1 = DReturn -> main s2 = DReturn ->
  cancelled_in tr1 = false -> cancelled_in tr2 = false ->
  pair_of <$> received s1 ≡ₚ pair_of <$> received s2.
Proof.
  intros Hst1 Hst2 H1 H2 Hm1 Hm2 Hc1 Hc2.
  pose proof (exec_not_cancelled _ _ _ _ _ H1 Hc1) as Hx1.
  pose proof (exec_not_cancelled _ _ _ _ _ H2 Hc2) as Hx2.
  apply exec_init_Reach in H1, H2.
  rewrite (returned_results _ _ _ _ H1 Hm1 Hx1 Hst1).
  rewrite (returned_results _ _ _ _ H2 Hm2 Hx2 Hst2).
  reflexivity.
Qed.

Lemma staffed_counts (files : list string) (word : string) :
  staffed (NewFileProcessor files word 1)
  /\ staffed (NewFileProcessor files word 2)
  /\ staffed (NewFileProcessor files word (Z.of_nat (length files))).
Proof.
  unfold staffed. cbn [WorkerCount Files NewFileProcessor].
  repeat split; try (left; lia).
  destruct files; [right; reflexivity|left; cbn [length]; lia].
Qed.

(** C7 on the demo files: on two workers, and on one worker under
    the scheduler [run]. *)
Definition single_schedule : list Label :=
  replicate 6 LMain ++ replicate 14 (LWorker 0) ++ replicate 2 LMain.

Lemma worker_count_irrelevant_witness :
  exists (tr1 tr2 : list Event) (s1 s2 : State),
    exec sample_fs demo_fp demo_schedule (init demo_fp) = Some (tr1, s1)
    /\ exec sample_fs cancelled_fp single_schedule (init cancelled_fp) = Some (tr2, s2)
    /\ pair_of <$> received s1 ≡ₚ pair_of <$> received s2.
Proof.
  do 4 eexists. split; [vm_compute; reflexivity|]. split; [vm_compute; reflexivity|].
  eapply (worker_count_irrelevant sample_fs
            ["./sample1.txt"; "./missing.txt"; "./broken.txt"] "go" 2 1
            demo_schedule single_schedule);
    [left; simpl; lia | left; simpl; lia | vm_compute; reflexivity ..].
Defined.

(** ** The configuration is not validated *)

(** A [config.yaml] that sets [workerCount: 0]. *)
Definition zero_workers : Config.Viper := Config.mkViper None None None (Some 0).

(** A [config.yaml] that sets [word: ""]. *)
Definition empty_word : Config.Viper := Config.mkViper None None (Some "") None.

(** C3 as the spec states it fails: a worker count of 0 comes out of
    [LoadConfig] with a nil error, [main] goes on to [ProcessFiles], and
    [ProcessFiles] returns after five steps with the job still in the
    queue and no result. *)
Lemma zero_workers_accepted :
  Config.LoadConfig zero_workers
  = ([Config.PrintFiles ["./sample1.txt"]; Config.PrintWord "go"; Config.PrintWorker 0],
     NewFileProcessor ["./sample1.txt"] "go" 0, None)
  /\ Config.main_start zero_workers
     = Config.Process (NewFileProcessor ["./sample1.txt"] "go" 0)
  /\ run sample_fs (NewFileProcessor ["./sample1.txt"] "go" 0) 9
       (init (NewFileProcessor ["./sample1.txt"] "go" 0))
     = ([ESpawned; EEnqueue (mkJob "./sample1.txt" "go"); ECloseJobs; EWaited;
         ECloseResults],
        mkState (mkChan [mkJob "./sample1.txt" "go"] 1 true) (mkChan [] 1 true)
                0 None DReturn [] false).
Proof. repeat split; vm_compute; reflexivity. Qed.

(** C3, amended. A worker count of 0 or less is not rejected:
    [LoadConfig] returns it with a nil error and [main] goes on to
    [ProcessFiles].  Every run then has no worker, receives no job and
    sends no result, and takes a bounded number of steps; left alone,
    [ProcessFiles] returns with all the jobs in the closed queue and the
    result channel closed and empty. *)
Theorem nonpositive_workers_run (v : Config.Viper) (fs : FileSystem) :
  Config.get (Config.found_workerCount v) Config.default_workerCount <= 0 ->
  exists fp : FileProcessor,
    snd (Config.LoadConfig v) = None
    /\ Config.main_start v = Config.Process fp
    /\ WorkerCount fp <= 0
    /\ (forall (ls : list Label) (tr : list Event) (s : State),
          exec fs fp ls (init fp) = Some (tr, s) ->
          workers s = [] /\ dequeued tr = [] /\ received s = []
          /\ (length ls <= measure fs fp (init fp))%nat)
    /\ (exists (tr : list Event) (s : State),
          run fs fp (measure fs fp (init fp)) (init fp) = (tr, s)
          /\ main s = DReturn /\ closed (results s) = true
          /\ received s = [] /\ buf (jobs s) = job_of fp <$> Files fp).
Proof.
  intros Hw. exists (snd (fst (Config.LoadConfig v))).
  split; [reflexivity|]. split; [reflexivity|]. split; [exact Hw|].
  set (fp := snd (fst (Config.LoadConfig v))).
  assert (Hfp : WorkerCount fp <= 0) by exact Hw. clearbody fp. split.
  - intros ls tr s H. pose proof (exec_bounded _ _ _ _ _ _ H) as Hb.
    apply exec_init_Reach in H.
    pose proof (Reach_pool_empty _ _ _ _ H Hfp) as Hws.
    destruct (Reach_no_workers _ _ _ _ H Hws) as [Hd He].
    pose proof (Reach_Inv _ _ _ _ H) as HI. destruct HI.
    unfold received. rewrite inv_results0.
    repeat split; try assumption. lia.
  - destruct (run_completes fs fp (measure fs fp (init fp)) [] (init fp)
                (Reach_init fs fp) ltac:(lia)) as (tr & s & Hrun & HR & Hm & _).
    exists tr, s. cbn [app] in HR.
    pose proof (Reach_pool_empty _ _ _ _ HR Hfp) as Hws.
    destruct (Reach_no_workers _ _ _ _ HR Hws) as [Hd He].
    pose proof (Reach_Inv _ _ _ _ HR) as HI. destruct HI.
    rewrite Hm in *. cbn [to_feed fmap list_fmap results_closed_at] in *.
    rewrite app_nil_r in inv_fed0. rewrite Hd in inv_queue0. cbn [app] in inv_queue0.
    unfold received. rewrite inv_results0, inv_queue0.
    repeat split; assumption.
Qed.

Lemma nonpositive_workers_run_witness :
  exists fp : FileProcessor,
    Config.main_start zero_workers = Config.Process fp /\ WorkerCount fp = 0.
Proof.
  destruct (nonpositive_workers_run zero_workers sample_fs ltac:(simpl; lia))
    as (fp & _ & Hm & _).
  exists fp. split; [exact Hm|].
  vm_compute in Hm. injection Hm as <-. reflexivity.
Defined.

(** The occurrences [CountWord] counts for the empty word. *)
Definition rune_total (lines : list string) : Z :=
  foldr (fun line acc => strings.RuneCountInString line + 1 + acc) 0 lines.

Lemma total_count_empty_word (lines : list string) :
  total_count "" lines = rune_total lines.
Proof. induction lines as [|l ls IH]; simpl; [reflexivity|]. rewrite IH. reflexivity. Qed.

Lemma rune_total_lines (lines : list string) :
  Z.of_nat (length lines) <= rune_total lines.
Proof.
  induction lines as [|l ls IH]; cbn [rune_total foldr length]; [lia|].
  fold (rune_total ls).
  pose proof (strings_facts.rune_count_from_bounds l 0). unfold strings.RuneCountInString. lia.
Qed.

(** C8 as the spec states it fails: an empty word comes out of
    [LoadConfig] with a nil error, [main] goes on to [ProcessFiles], a job
    with the empty word is enqueued, and its count on the three lines of
    the sample file (9, 9 and 11 bytes) is 10 + 10 + 12. *)
Lemma empty_word_accepted :
  Config.LoadConfig empty_word
  = ([Config.PrintFiles ["./sample1.txt"]; Config.PrintWord ""; Config.PrintWorker 1],
     NewFileProcessor ["./sample1.txt"] "" 1, None)
  /\ Config.main_start empty_word
     = Config.Process (NewFileProcessor ["./sample1.txt"] "" 1)
  /\ enqueued (fst (run sample_fs (NewFileProcessor ["./sample1.txt"] "" 1) 20
                      (init (NewFileProcessor ["./sample1.txt"] "" 1))))
     = [mkJob "./sample1.txt" ""]
  /\ received (snd (run sample_fs (NewFileProcessor ["./sample1.txt"] "" 1) 20
                      (init (NewFileProcessor ["./sample1.txt"] "" 1))))
     = [mkResult "./sample1.txt" 32 None].
Proof. repeat split; vm_compute; reflexivity. Qed.

(** C8, amended. An empty target word is not rejected: [LoadConfig]
    returns it with a nil error and [main] goes on to [ProcessFiles];
    every job enqueued carries the empty word; and for such a job, on a
    file read to its end without cancellation, [CountWord] counts on each
    line one more than the number of code points of the line, so at least
    one per line. *)
Theorem empty_word_run (v : Config.Viper) :
  Config.get (Config.found_word v) Config.default_word = "" ->
  exists fp : FileProcessor,
    snd (Config.LoadConfig v) = None
    /\ Config.main_start v = Config.Process fp
    /\ fpWord fp = ""
    /\ (forall (fs : FileSystem) (ls : list Label) (tr : list Event) (s : State),
          exec fs fp ls (init fp) = Some (tr, s) ->
          Forall (fun j => Word j = "") (enqueued tr))
    /\ (forall (fs : FileSystem) (ctx : Context) (job : Job) (f : File),
          Word job = "" ->
          fs (FilePath job) = OpenOk f ->
          file_end f = AtEOF ->
          stays_open ctx (length (file_lines f)) = true ->
          rune_total (file_lines f) <= int_max ->
          CountWord fs ctx job = mkResult (FilePath job) (rune_total (file_lines f)) None
          /\ Z.of_nat (length (file_lines f)) <= WordCount (CountWord fs ctx job)).
Proof.
  intros Hw. exists (snd (fst (Config.LoadConfig v))).
  split; [reflexivity|]. split; [reflexivity|]. split; [exact Hw|].
  set (fp := snd (fst (Config.LoadConfig v))).
  assert (Hfp : fpWord fp = "") by exact Hw. clearbody fp. split.
  - intros fs ls tr s H. apply exec_init_Reach, Reach_enqueued in H as [k ->].
    apply Forall_fmap, Forall_forall. intros p _. exact Hfp.
  - intros fs ctx job f Hj Hopen Hend Hctx Hmax.
    assert (E : CountWord fs ctx job
                = mkResult (FilePath job) (rune_total (file_lines f)) None).
    { unfold CountWord. rewrite Hopen. change 0 with (wrap_int 0) at 1.
      rewrite (scan_loop_open ctx job (file_lines f) (file_end f) 0 Hctx), Hend, Hj.
      cbn [scan_exit]. unfold count_result. f_equal.
      rewrite Z.add_0_l, total_count_empty_word. apply wrap_int_small.
      pose proof (rune_total_lines (file_lines f)). unfold int_min. lia. }
    split; [exact E|]. rewrite E. cbn [WordCount]. apply rune_total_lines.
Qed.

Lemma empty_word_run_witness :
  exists fp : FileProcessor,
    Config.main_start empty_word = Config.Process fp /\ fpWord fp = "".
Proof.
  destruct (empty_word_run empty_word eq_refl) as (fp & _ & Hm & Hw & _).
  exists fp. split; [exact Hm|exact Hw].
Defined.

(** * Further properties of the code *)

(** ** [CountWord] under any context *)

Lemma stays_open_false (ctx : Context) (n : nat) :
  stays_open ctx n = false -> exists k, ctx_open ctx = Some k /\ (k < n)%nat.
Proof.
  unfold stays_open. destruct (ctx_open ctx) as [k|]; [|discriminate].
  intros H. exists k. split; [reflexivity|]. apply Nat.leb_gt, H.
Qed.

Lemma scan_loop_Background (ctx : Context) (job : Job) (lines : list string)
    (e : ScanEnd) :
  stays_open ctx (length lines) = true ->
  scan_loop ctx job lines e 0 = scan_loop Background job lines e 0.
Proof.
  intros H. change 0 with (wrap_int 0).
  rewrite (scan_loop_open ctx job lines e 0 H).
  rewrite (scan_loop_open Background job lines e 0 eq_refl). reflexivity.
Qed.

(** X1. The [Result] of [CountWord] is decided by the file and by how long
    the context stays open: the error of [os.Open] when the file does not
    open; the same [Result] as under a context never cancelled when every
    poll, one before each line, finds the context open (so also for a file
    without lines under a context already cancelled); and otherwise the
    context's error with count 0.  There is no [Result] in between. *)
Theorem CountWord_by_context (fs : FileSystem) (ctx : Context) (job : Job) :
  CountWord fs ctx job
  = match fs (FilePath job) with
    | OpenErr err => mkResult (FilePath job) 0 (Some err)
    | OpenOk f =>
        if stays_open ctx (length (file_lines f))
        then CountWord fs Background job
        else mkResult (FilePath job) 0 (Some (ctx_error ctx))
    end.
Proof.
  unfold CountWord. destruct (fs (FilePath job)) as [err|f]; [reflexivity|].
  destruct (stays_open ctx (length (file_lines f))) eqn:E.
  - apply scan_loop_Background, E.
  - apply stays_open_false in E as (k & Hk & Hlt).
    apply (scan_loop_cancelled ctx job (file_lines f) (file_end f) 0 k Hk Hlt).
Qed.

Lemma scan_loop_error_zero (ctx : Context) (job : Job) (lines : list string)
    (e : ScanEnd) (wordCount : Z) :
  Error (scan_loop ctx job lines e wordCount) = None
  \/ WordCount (scan_loop ctx job lines e wordCount) = 0.
Proof.
  revert ctx wordCount. induction lines as [|l ls IH]; intros ctx n; cbn [scan_loop].
  - destruct e; [left|right]; reflexivity.
  - unfold scan_body. destruct (poll ctx); [right; reflexivity|apply IH].
Qed.

(** X2. Whatever the file and the context, a [Result] of [CountWord] that
    carries an error has count 0: an open failure, a read error and a
    cancellation all drop what was counted. *)
Theorem CountWord_error_zero (fs : FileSystem) (ctx : Context) (job : Job) :
  Error (CountWord fs ctx job) = None \/ WordCount (CountWord fs ctx job) = 0.
Proof.
  unfold CountWord. destruct (fs (FilePath job)) as [err|f]; [right; reflexivity|].
  apply scan_loop_error_zero.
Qed.

(** ** The count against the size of the file *)

Lemma Occurrences_length (sub s : string) (ps : list nat) :
  Occurrences sub s ps ->
  (length ps * String.length sub <= String.length s)%nat.
Proof.
  induction 1 as [s|s p ps Hp Hrest IH]; [cbn; lia|].
  apply strings_facts.HasPrefix_length in Hp.
  rewrite strings_facts.drop_length in Hp, IH. cbn [length]. lia.
Qed.

Lemma Count_times_length (s sub : string) :
  sub <> "" -> strings.Count s sub * strings.len sub <= strings.len s.
Proof.
  intros Hsub. destruct (strings_facts.Count_occurrences s sub Hsub) as [(ps & Hps & Hn) _].
  apply Occurrences_length in Hps. rewrite <- Hn. unfold strings.len. nia.
Qed.

(** The bytes of the lines of a file. *)
Definition line_bytes (lines : list string) : Z :=
  foldr (fun line acc => strings.len line + acc) 0 lines.

Lemma total_count_times_length (word : string) (lines : list string) :
  word <> "" -> total_count word lines * strings.len word <= line_bytes lines.
Proof.
  intros Hw. induction lines as [|l ls IH]; cbn [total_count line_bytes foldr]; [lia|].
  fold (total_count word ls). fold (line_bytes ls).
  pose proof (Count_times_length l word Hw). lia.
Qed.

Lemma line_bytes_nonneg (lines : list string) : 0 <= line_bytes lines.
Proof.
  induction lines as [|l ls IH]; cbn [line_bytes foldr]; [lia|].
  fold (line_bytes ls). unfold strings.len. lia.
Qed.

(** X3. For a word that is not empty, the occurrences [CountWord] reports
    do not overlap, so they fit in the lines: the count times the length
    of the word is at most the number of bytes of the lines, under any
    context and however the scan ends (lines of less than [2^63] bytes in
    all, as every file has). *)
Theorem CountWord_fits (fs : FileSystem) (ctx : Context) (job : Job) (f : File) :
  fs (FilePath job) = OpenOk f ->
  Word job <> "" ->
  line_bytes (file_lines f) <= int_max ->
  0 <= WordCount (CountWord fs ctx job)
  /\ WordCount (CountWord fs ctx job) * strings.len (Word job) <= line_bytes (file_lines f).
Proof.
  intros Hopen Hw Hmax.
  pose proof (line_bytes_nonneg (file_lines f)) as Hb.
  assert (Hl : 1 <= strings.len (Word job)).
  { unfold strings.len. destruct (Word job); [congruence|]. cbn [String.length]. lia. }
  pose proof (total_count_times_length (Word job) (file_lines f) Hw) as Ht.
  pose proof (total_count_bounds (Word job) (file_lines f)) as [Ht0 _].
  assert (Hmul : total_count (Word job) (file_lines f)
                 <= total_count (Word job) (file_lines f) * strings.len (Word job)) by nia.
  assert (Hfit : total_count (Word job) (file_lines f) <= int_max)
    by (eapply Z.le_trans; [exact Hmul|]; eapply Z.le_trans; [exact Ht|exact Hmax]).
  unfold CountWord. rewrite Hopen.
  destruct (stays_open ctx (length (file_lines f))) eqn:E.
  - pose proof (scan_loop_open ctx job (file_lines f) (file_end f) 0 E) as Hs.
    change (wrap_int 0) with 0 in Hs. rewrite Z.add_0_l in Hs.
    rewrite (wrap_int_small (total_count (Word job) (file_lines f))) in Hs
      by (unfold int_min; lia).
    rewrite Hs.
    destruct (file_end f); cbn [scan_exit count_result error_result WordCount]; lia.
  - apply stays_open_false in E as (k & Hk & Hlt).
    rewrite (scan_loop_cancelled ctx job (file_lines f) (file_end f) 0 k Hk Hlt).
    cbn [error_result WordCount]. lia.
Qed.

Lemma CountWord_fits_witness :
  0 <= WordCount (CountWord sample_fs Background (mkJob "./sample1.txt" "go"))
  /\ WordCount (CountWord sample_fs Background (mkJob "./sample1.txt" "go")) * 2 <= 29.
Proof.
  apply (CountWord_fits sample_fs Background (mkJob "./sample1.txt" "go") sample_file);
    [reflexivity | discriminate | vm_compute; discriminate].
Defined.

(** ** The main loop over the results *)

(** The count lines among what [main] prints, as (file, count). *)
Definition processed_lines (ps : list Printed) : list (string * Z) :=
  omap (fun p => match p with
                 | PrintProcessed filepath n => Some (filepath, n)
                 | _ => None
                 end) ps.

(** The error lines among what [main] prints, as (file, error). *)
Definition error_lines (ps : list Printed) : list (string * error) :=
  omap (fun p => match p with
                 | PrintError filepath err => Some (filepath, err)
                 | _ => None
                 end) ps.

(** The results that carry an error, as (file, error). *)
Definition failures (rs : list Result) : list (string * error) :=
  omap (fun r => pair (rFilePath r) <$> Error r) rs.

Lemma report_lines (rs : list Result) :
  processed_lines (rs ≫= report) = pair_of <$> rs
  /\ error_lines (rs ≫= report) = failures rs
  /\ length (rs ≫= report) = (length rs + length (failures rs))%nat.
Proof.
  induction rs as [|r rs (IH1 & IH2 & IH3)]; [repeat split|].
  cbn [mbind list_bind]. unfold processed_lines, error_lines in *.
  rewrite !omap_app, length_app, IH1, IH2, IH3.
  unfold report, failures, pair_of. cbn [omap list_omap fmap list_fmap].
  destruct (Error r); cbn; repeat split; lia.
Qed.


(** ** The run never gets stuck *)

(** X5. At every point of every run, cancelled or not, no goroutine has
    panicked and none is about to (no send on a closed channel, no second
    [close], no [wg.Done()] below zero), and unless [ProcessFiles] has
    returned some goroutine can take its next step: there is no
    deadlock. *)
Theorem run_never_stuck (fs : FileSystem) (fp : FileProcessor) (ls : list Label)
    (tr : list Event) (s : State) :
  exec fs fp ls (init fp) = Some (tr, s) ->
  panicked s = false
  /\ ~ panics s
  /\ (main s = DReturn
      \/ exists l, l ∈ labels s /\ is_Some (step fs fp l s)).
Proof.
  intros H. apply exec_init_Reach in H.
  pose proof (Reach_Inv _ _ _ _ H) as HI.
  split; [destruct HI; assumption|]. split; [exact (Inv_no_panic fp tr s HI)|].
  assert (main s = DReturn \/ main s <> DReturn) as [Hm|Hm]
    by (destruct (main s); auto; right; discriminate).
  - left. exact Hm.
  - right. exact (progress fs fp tr s H Hm).
Qed.

Lemma run_never_stuck_witness :
  exists (tr : list Event) (s : State),
    exec sample_fs cancelled_fp [LMain; LMain; LCancel Canceled] (init cancelled_fp)
    = Some (tr, s)
    /\ panicked s = false
    /\ (main s = DReturn \/ exists l, l ∈ labels s /\ is_Some (step sample_fs cancelled_fp l s)).
Proof.
  do 2 eexists. split; [vm_compute; reflexivity|].
  destruct (run_never_stuck sample_fs cancelled_fp [LMain; LMain; LCancel Canceled] _ _
              ltac:(vm_compute; reflexivity)) as (Hp & _ & Hs).
  split; [exact Hp|exact Hs].
Defined.

(** ** The channels are large enough *)

(** X6. The two channels are made with room for every file, so no send
    ever waits: whenever the goroutine of [ProcessFiles] stands at
    [jobs <- Job{...}] and whenever a worker stands at
    [fp.Results <- result], the channel is open and its buffer has room.
    At no point are there more jobs in the queue or more results in the
    channel than files. *)
Theorem sends_never_block (fs : FileSystem) (fp : FileProcessor) (ls : list Label)
    (tr : list Event) (s : State) :
  exec fs fp ls (init fp) = Some (tr, s) ->
  (forall filepath rest, main s = DFeed (filepath :: rest) ->
     send (jobs s) (job_of fp filepath)
     = Sent (mkChan (buf (jobs s) ++ [job_of fp filepath]) (cap (jobs s)) false))
  /\ (forall w r, workers s !! w = Some (WSend r) ->
        send (results s) r
        = Sent (mkChan (buf (results s) ++ [r]) (cap (results s)) false))
  /\ (length (buf (jobs s)) <= length (Files fp))%nat
  /\ (length (received s) <= length (Files fp))%nat.
Proof.
  intros H. apply exec_init_Reach in H.
  pose proof (Reach_Inv _ _ _ _ H) as HI.
  pose proof (Reach_paths _ _ _ _ H) as HP. apply Permutation_length in HP.
  rewrite length_app, !length_fmap in HP.
  destruct HI.
  assert (Hlen : (length (dequeued tr) + length (buf (jobs s))
                  + length (to_feed fp (main s)) = length (Files fp))%nat).
  { apply (f_equal length) in inv_queue0, inv_fed0. unfold all_jobs in inv_fed0.
    rewrite !length_app, ?length_fmap in *. lia. }
  split; [|split; [|split]].
  - intros filepath rest Hm. rewrite Hm in *. cbn [to_feed jobs_closed_at length] in *.
    unfold send. rewrite inv_jobs_closed0, inv_jobs_cap0.
    destruct (Nat.ltb_spec (length (buf (jobs s))) (length (Files fp))); [reflexivity|lia].
  - intros w r Hw. unfold send.
    assert (Hc : closed (results s) = false).
    { rewrite inv_results_closed0. destruct (main s); try reflexivity.
      cbn [waited_at] in inv_waited0.
      apply (live_nil_lookup _ _ _ (inv_waited0 eq_refl)) in Hw. discriminate. }
    rewrite Hc, inv_results_cap0, inv_results0.
    apply in_flight_lookup in Hw.
    destruct (Nat.ltb_spec (length (emitted tr)) (length (Files fp))); [reflexivity|lia].
  - lia.
  - unfold received. rewrite inv_results0. lia.
Qed.

Lemma sends_never_block_witness :
  exists (tr : list Event) (s : State),
    exec sample_fs demo_fp demo_schedule (init demo_fp) = Some (tr, s)
    /\ (length (received s) <= 3)%nat.
Proof.
  do 2 eexists. split; [vm_compute; reflexivity|].
  destruct (sends_never_block sample_fs demo_fp demo_schedule _ _
              ltac:(vm_compute; reflexivity)) as (_ & _ & _ & H).
  exact H.
Defined.

(** ** Every run ends *)

(** The cost of a file in steps: to enqueue and receive its job, to open
    it, to scan each line and the end of the file, and to send the
    result. *)
Definition file_steps (fs : FileSystem) (filepath : string) : nat :=
  match fs filepath with
  | OpenErr _ => 3
  | OpenOk f => length (file_lines f) + 4
  end.

Definition step_bound (fs : FileSystem) (fp : FileProcessor) : nat :=
  2 * Z.to_nat (WorkerCount fp) + sum_list_with (file_steps fs) (Files fp) + 6.

Lemma measure_init (fs : FileSystem) (fp : FileProcessor) :
  measure fs fp (init fp) = step_bound fs fp.
Proof.
  unfold measure, step_bound, init. cbn [main jobs buf make workers ctx panicked].
  cbn [main_cost queue_cost sum_list_with]. unfold feed_cost.
  rewrite Z.sub_0_r.
  assert (E : sum_list_with (fun f => S (S (job_cost fs (job_of fp f)))) (Files fp)
              = sum_list_with (file_steps fs) (Files fp)).
  { induction (Files fp) as [|f l IH]; [reflexivity|].
    cbn [sum_list_with]. rewrite IH. unfold file_steps, job_cost, job_of. cbn [FilePath].
    destruct (fs f); lia. }
  rewrite E. lia.
Qed.

(** X7. [ProcessFiles] ends under every schedule, cancelled or not: no
    run takes more than two steps per worker, three steps per file that
    does not open, the number of lines plus four per file that opens, and
    six steps more. *)
Theorem runs_bounded (fs : FileSystem) (fp : FileProcessor) (ls : list Label)
    (tr : list Event) (s : State) :
  exec fs fp ls (init fp) = Some (tr, s) ->
  (length ls <= step_bound fs fp)%nat.
Proof.
  intros H. apply exec_bounded in H. rewrite measure_init in H. lia.
Qed.

Lemma runs_bounded_witness :
  (length demo_schedule <= step_bound sample_fs demo_fp)%nat.
Proof.
  apply (runs_bounded sample_fs demo_fp demo_schedule
           (fst (default ([], init demo_fp) (exec sample_fs demo_fp demo_schedule (init demo_fp))))
           (snd (default ([], init demo_fp) (exec sample_fs demo_fp demo_schedule (init demo_fp))))).
  vm_compute. reflexivity.
Defined.

(** ** After [ProcessFiles] has returned *)

Lemma returned_step (fs : FileSystem) (fp : FileProcessor) (tr : list Event)
    (s : State) (e : Event) (s' : State) :
  Reach fs fp tr s -> main s = DReturn -> Step fs fp s e s' ->
  is_cancel e = true /\ results s' = results s /\ jobs s' = jobs s
  /\ main s' = DReturn.
Proof.
  intros HR Hm HS. pose proof (Reach_Inv _ _ _ _ HR) as HI.
  pose proof (Inv_no_panic fp tr s HI) as Hnp. destruct HI.
  rewrite Hm in inv_waited0. specialize (inv_waited0 eq_refl).
  destruct HS; proj_simpl_all; try discriminate;
    try (apply (live_nil_lookup _ _ _ inv_waited0) in H; discriminate).
  - contradiction.
  - repeat split; assumption.
Qed.

Lemma returned_exec (fs : FileSystem) (fp : FileProcessor) (ls : list Label)
    (tr : list Event) (s : State) (tr' : list Event) (s' : State) :
  Reach fs fp tr s -> main s = DReturn -> exec fs fp ls s = Some (tr', s') ->
  forallb is_cancel tr' = true /\ results s' = results s /\ jobs s' = jobs s
  /\ main s' = DReturn.
Proof.
  revert tr s tr'. induction ls as [|l ls IH]; intros tr s tr' HR Hm; cbn [exec].
  - intros [= <- <-]. repeat split; assumption.
  - destruct (step fs fp l s) as [[e s1]|] eqn:Hs; [|discriminate].
    destruct (exec fs fp ls s1) as [[tr1 s2]|] eqn:He; [|discriminate].
    intros [= <- <-].
    destruct (returned_step fs fp tr s e s1 HR Hm (step_Step fs fp _ _ _ _ Hs))
      as (Hc & Hr & Hj & Hm1).
    pose proof (Reach_step fs fp _ _ _ _ _ HR Hs) as HR1.
    destruct (IH _ _ _ HR1 Hm1 He) as (Hc' & Hr' & Hj' & Hm').
    cbn [forallb]. rewrite Hc, Hc'. repeat split; congruence.
Qed.

(** X8. The close of [fp.Results] is final.  Once [ProcessFiles] has
    returned, every worker has returned too, and whatever is scheduled
    afterwards can only be the cancellation of the context: the results
    [main] ranges over and the jobs left in the queue stay as they are. *)
Theorem returned_is_final (fs : FileSystem) (fp : FileProcessor)
    (ls ls' : list Label) (tr tr' : list Event) (s s' : State) :
  exec fs fp ls (init fp) = Some (tr, s) ->
  main s = DReturn ->
  exec fs fp ls' s = Some (tr', s') ->
  forallb is_cancel tr' = true
  /\ received s' = received s
  /\ jobs s' = jobs s
  /\ main s' = DReturn
  /\ live (workers s) = [].
Proof.
  intros H Hm H'. apply exec_init_Reach in H.
  destruct (returned_exec fs fp ls' tr s tr' s' H Hm H') as (Hc & Hr & Hj & Hm').
  pose proof (Reach_Inv _ _ _ _ H) as HI. destruct HI.
  rewrite Hm in inv_waited0. unfold received. rewrite Hr.
  repeat split; try assumption. apply inv_waited0. reflexivity.
Qed.

Lemma returned_is_final_witness :
  exists (tr tr' : list Event) (s s' : State),
    exec sample_fs demo_fp demo_schedule (init demo_fp) = Some (tr, s)
    /\ exec sample_fs demo_fp [LCancel Canceled] s = Some (tr', s')
    /\ received s' = received s.
Proof.
  do 4 eexists. split; [vm_compute; reflexivity|]. split; [vm_compute; reflexivity|].
  destruct (returned_is_final sample_fs demo_fp demo_schedule [LCancel Canceled] _ _ _ _
              ltac:(vm_compute; reflexivity) eq_refl ltac:(vm_compute; reflexivity))
    as (_ & H & _).
  exact H.
Defined.

(** ** No partial result reaches [main] *)

(** [r] is the whole outcome for a file of the list: what [CountWord]
    returns for it under a context never cancelled, or a cancellation
    with count 0. *)
Definition settled (fs : FileSystem) (fp : FileProcessor) (r : Result) : Prop :=
  exists filepath, filepath ∈ Files fp
    /\ (r = CountWord fs Background (job_of fp filepath)
        \/ exists err, is_ctx_err err = true /\ r = mkResult filepath 0 (Some err)).

Section Settled.
Variable fs : FileSystem.
Variable fp : FileProcessor.

(** A worker holds a job of the list, at a point of the scan that agrees
    with the scan never cancelled, or a settled result. *)
Definition on_track (x : Worker) : Prop :=
  match x with
  | WScan job rest e n =>
      (exists filepath, filepath ∈ Files fp /\ job = job_of fp filepath)
      /\ scan_loop Background job rest e n = CountWord fs Background job
  | WSend r => settled fs fp r
  | _ => True
  end.

Definition Settled (tr : list Event) (s : State) : Prop :=
  match ctx s with Some err => is_ctx_err err = true | None => True end
  /\ Forall (settled fs fp) (emitted tr)
  /\ Forall on_track (workers s).

Lemma on_track_open_job (filepath : string) :
  filepath ∈ Files fp -> on_track (open_job fs (job_of fp filepath)).
Proof.
  intros Hin. unfold open_job.
  destruct (fs (FilePath (job_of fp filepath))) as [err|f] eqn:E; cbn [on_track].
  - exists filepath. split; [exact Hin|]. left. unfold CountWord. rewrite E. reflexivity.
  - split; [exists filepath; split; [exact Hin|reflexivity]|].
    unfold CountWord. rewrite E. reflexivity.
Qed.

Lemma on_track_scan_step (c : option error) (job : Job) (rest : list string)
    (e : ScanEnd) (n : Z) :
  match c with Some err => is_ctx_err err = true | None => True end ->
  on_track (WScan job rest e n) -> on_track (scan_step c job rest e n).
Proof.
  intros Hc [(filepath & Hin & ->) Hs]. unfold scan_step.
  destruct rest as [|line rest]; cbn [on_track].
  - exists filepath. split; [exact Hin|]. left. exact Hs.
  - unfold scan_body. destruct c as [err|]; cbn [on_track].
    + exists filepath. split; [exact Hin|]. right. exists err. split; [exact Hc|reflexivity].
    + split; [exists filepath; split; [exact Hin|reflexivity]|]. exact Hs.
Qed.

Lemma Settled_step tr s e s' :
  Inv fp tr s -> Settled tr s -> Step fs fp s e s' -> Settled (tr ++ [e]) s'.
Proof.
  intros HI (Hc & He & Hw) HS. unfold Settled.
  destruct HI. destruct HS; proj_simpl_all; snoc_simpl;
    try (split; [exact Hc|split; [exact He|]]);
    try exact Hw.
  - apply Forall_app. split; [exact Hw|]. apply Forall_singleton. exact I.
  - apply Forall_insert; [exact Hw|].
    assert (Hj : job ∈ all_jobs fp).
    { rewrite <- inv_fed0, <- inv_queue0. apply elem_of_app. left.
      apply elem_of_app. right. apply list_elem_of_here. }
    apply list_elem_of_fmap in Hj as (filepath & -> & Hin).
    apply on_track_open_job, Hin.
  - apply Forall_insert; [exact Hw|exact I].
  - apply Forall_insert; [exact Hw|exact I].
  - apply Forall_insert; [exact Hw|].
    apply on_track_scan_step; [exact Hc|].
    rewrite Forall_lookup in Hw. exact (Hw _ _ H).
  - split; [exact Hc|]. split.
    + apply Forall_app. split; [exact He|]. apply Forall_singleton.
      rewrite Forall_lookup in Hw. exact (Hw _ _ H).
    + apply Forall_insert; [exact Hw|exact I].
  - split; [exact H|]. split; [exact He|exact Hw].
Qed.

Lemma Reach_Settled tr s : Reach fs fp tr s -> Settled tr s.
Proof.
  induction 1 as [|tr s l e s' HR IH Hs].
  - repeat split; constructor.
  - eapply Settled_step; [exact (Reach_Inv fs fp _ _ HR)|exact IH|].
    eapply step_Step, Hs.
Qed.

End Settled.

(** X9. At every point of every run, each [Result] in the result channel
    is the whole outcome for one file of the list: either what
    [CountWord] returns for that file when nothing is cancelled, or a
    cancellation error with count 0.  A cancelled run never hands [main]
    a partial count. *)
Theorem results_all_or_nothing (fs : FileSystem) (fp : FileProcessor)
    (ls : list Label) (tr : list Event) (s : State) :
  exec fs fp ls (init fp) = Some (tr, s) ->
  Forall (settled fs fp) (received s).
Proof.
  intros H. apply exec_init_Reach in H.
  destruct (Reach_Settled fs fp tr s H) as (_ & He & _).
  apply Reach_Inv in H. destruct H. unfold received. rewrite inv_results0. exact He.
Qed.

Lemma results_all_or_nothing_witness :
  exists (tr : list Event) (s : State),
    exec sample_fs cancelled_fp cancelled_schedule (init cancelled_fp) = Some (tr, s)
    /\ received s = [mkResult "./sample1.txt" 0 (Some Canceled)]
    /\ Forall (settled sample_fs cancelled_fp) (received s).
Proof.
  do 2 eexists. split; [vm_compute; reflexivity|]. split; [reflexivity|].
  apply (results_all_or_nothing sample_fs cancelled_fp cancelled_schedule _ _
           ltac:(vm_compute; reflexivity)).
Defined.

(** ** One worker keeps the order of the files *)

Section Ordered.
Variable fs : FileSystem.
Variable fp : FileProcessor.

(** While the context is open, the results a worker has sent and the one
    it is heading for are those of [CountWord] on the jobs it received,
    in the order it received them. *)
Definition Ordered (w : nat) (tr : list Event) (s : State) : Prop :=
  ctx s = None ->
  CountWord fs Background <$> taken_by w tr
  = (sent_by w tr ++ option_list (workers s !! w ≫= pending))%list.

Lemma pending_open_job (job : Job) :
  pending (open_job fs job) = Some (CountWord fs Background job).
Proof. unfold open_job, CountWord. destruct (fs (FilePath job)); reflexivity. Qed.

Lemma pending_scan_step (job : Job) (rest : list string) (e : ScanEnd) (n : Z) :
  pending (scan_step None job rest e n) = pending (WScan job rest e n).
Proof. unfold scan_step. destruct rest; reflexivity. Qed.

Ltac at_worker w w0 H :=
  destruct (decide (w0 = w)) as [->|Hne];
  [ rewrite ?Nat.eqb_refl; rewrite list_lookup_insert_eq by (eapply lookup_lt_Some, H)
  | rewrite ?(proj2 (Nat.eqb_neq _ _)) by congruence;
    rewrite list_lookup_insert_ne by congruence ].

Lemma Ordered_step w tr s e s' :
  Ordered w tr s -> Step fs fp s e s' -> Ordered w (tr ++ [e]) s'.
Proof.
  unfold Ordered. intros HO HS.
  destruct HS; proj_simpl_all; rewrite taken_by_snoc, sent_by_snoc;
    cbn [taken_by sent_by omap list_omap]; rewrite ?app_nil_r; try exact HO;
    intros Hc; try discriminate; specialize (HO Hc).
  - destruct (decide (w < length ws)%nat) as [Hlt|Hge].
    + rewrite lookup_app_l by exact Hlt. exact HO.
    + rewrite lookup_ge_None_2 in HO by lia. rewrite HO.
      destruct (decide (w = length ws)) as [->|Hne].
      * rewrite list_lookup_middle by reflexivity. reflexivity.
      * rewrite lookup_ge_None_2 by (rewrite length_app; cbn; lia). reflexivity.
  - at_worker w w0 H.
    + rewrite H in HO. cbn in HO. rewrite app_nil_r in HO.
      rewrite fmap_app, HO. cbn. rewrite pending_open_job. reflexivity.
    + rewrite app_nil_r. exact HO.
  - at_worker w w0 H.
    + rewrite H in HO. exact HO.
    + exact HO.
  - subst c. at_worker w w0 H.
    + rewrite H in HO. cbn. rewrite pending_scan_step. exact HO.
    + exact HO.
  - at_worker w w0 H.
    + rewrite H in HO. cbn in HO. rewrite app_nil_r. rewrite HO. reflexivity.
    + rewrite app_nil_r. exact HO.
Qed.

Lemma Reach_Ordered w tr s : Reach fs fp tr s -> Ordered w tr s.
Proof.
  induction 1 as [|tr s l e s' _ IH Hs].
  - intros _. reflexivity.
  - eapply Ordered_step; [exact IH|]. eapply step_Step, Hs.
Qed.

(** Only the workers spawned so far appear in the trace. *)
Lemma Reach_spawned_only w tr s :
  Reach fs fp tr s -> (length (workers s) <= w)%nat ->
  taken_by w tr = [] /\ sent_by w tr = [].
Proof.
  induction 1 as [|tr s l e s' HR IH Hs]; [split; reflexivity|].
  apply step_Step in Hs.
  destruct Hs; proj_simpl_all; rewrite taken_by_snoc, sent_by_snoc;
    cbn [taken_by sent_by omap list_omap]; rewrite ?app_nil_r;
    rewrite ?length_insert, ?length_app; cbn [length]; intros Hw;
    try (apply IH; lia);
    apply lookup_lt_Some in H;
    rewrite (proj2 (Nat.eqb_neq w w0)) by lia; rewrite ?app_nil_r; apply IH; lia.
Qed.

End Ordered.

Lemma dequeued_one_worker (tr : list Event) :
  (forall w, (1 <= w)%nat -> taken_by w tr = []) -> dequeued tr = taken_by 0 tr.
Proof.
  induction tr as [|e tr IH]; intros H; [reflexivity|].
  assert (Hrest : forall w, (1 <= w)%nat -> taken_by w tr = []).
  { intros w Hw. specialize (H w Hw). cbn [taken_by omap list_omap] in H.
    destruct e; try exact H. destruct (w =? w0)%nat; [discriminate|exact H]. }
  cbn [dequeued taken_by omap list_omap]. fold (dequeued tr). fold (taken_by 0 tr).
  rewrite (IH Hrest). destruct e; try reflexivity.
  destruct w as [|w]; [reflexivity|].
  specialize (H (S w) ltac:(lia)). cbn [taken_by omap list_omap] in H.
  rewrite Nat.eqb_refl in H. discriminate.
Qed.

Lemma emitted_one_worker (tr : list Event) :
  (forall w, (1 <= w)%nat -> sent_by w tr = []) -> emitted tr = sent_by 0 tr.
Proof.
  induction tr as [|e tr IH]; intros H; [reflexivity|].
  assert (Hrest : forall w, (1 <= w)%nat -> sent_by w tr = []).
  { intros w Hw. specialize (H w Hw). cbn [sent_by omap list_omap] in H.
    destruct e; try exact H. destruct (w =? w0)%nat; [discriminate|exact H]. }
  cbn [emitted sent_by omap list_omap]. fold (emitted tr). fold (sent_by 0 tr).
  rewrite (IH Hrest). destruct e; try reflexivity.
  destruct w as [|w]; [reflexivity|].
  specialize (H (S w) ltac:(lia)). cbn [sent_by omap list_omap] in H.
  rewrite Nat.eqb_refl in H. discriminate.
Qed.

(** X10. With one worker and no cancellation the results come in the
    order of the file list: when [ProcessFiles] has returned, the result
    channel holds, file by file and in that order, what [CountWord]
    returns for each file. *)
Theorem one_worker_keeps_order (fs : FileSystem) (fp : FileProcessor)
    (ls : list Label) (tr : list Event) (s : State) :
  WorkerCount fp = 1 ->
  exec fs fp ls (init fp) = Some (tr, s) ->
  main s = DReturn ->
  cancelled_in tr = false ->
  received s = CountWord fs Background <$> (job_of fp <$> Files fp).
Proof.
  intros Hw H Hm Hc. apply exec_init_Reach in H.
  pose proof (Reach_Inv _ _ _ _ H) as HI. destruct HI.
  assert (Hctx : ctx s = None) by (apply inv_ctx0, Hc).
  rewrite Hm in *. cbn [waited_at] in inv_waited0. specialize (inv_waited0 eq_refl).
  assert (Hlen : length (workers s) = 1%nat)
    by (cbv beta iota in inv_pool0; unfold pool in inv_pool0; lia).
  assert (Hone : forall w, (1 <= w)%nat -> taken_by w tr = [] /\ sent_by w tr = []).
  { intros w Hle. apply (Reach_spawned_only fs fp w tr s H). lia. }
  assert (Hst : staffed fp) by (left; lia).
  destruct (returned_all_taken fs fp tr s H Hm Hctx Hst) as [Hd _].
  pose proof (Reach_Ordered fs fp 0 tr s H Hctx) as HO.
  destruct (workers s) as [|x [|y ws]] eqn:Ews; try discriminate.
  pose proof (live_nil_lookup [x] 0 x inv_waited0 eq_refl) as ->.
  cbn in HO. rewrite app_nil_r in HO.
  unfold received. rewrite inv_results0.
  rewrite (emitted_one_worker tr (fun w Hle => proj2 (Hone w Hle))), <- HO.
  rewrite <- (dequeued_one_worker tr (fun w Hle => proj1 (Hone w Hle))), Hd.
  reflexivity.
Qed.

Lemma one_worker_keeps_order_witness :
  exists (tr : list Event) (s : State),
    exec sample_fs cancelled_fp single_schedule (init cancelled_fp) = Some (tr, s)
    /\ rFilePath <$> received s = ["./sample1.txt"; "./missing.txt"; "./broken.txt"].
Proof.
  do 2 eexists. split; [vm_compute; reflexivity|].
  rewrite (one_worker_keeps_order sample_fs cancelled_fp single_schedule _ _
             eq_refl ltac:(vm_compute; reflexivity) eq_refl eq_refl).
  reflexivity.
Defined.

(** ** No files *)

(** X11. With an empty file list [ProcessFiles] enqueues nothing: in
    every run, whatever the worker count and the schedule, no job is
    received and no result is sent, and the result channel [main] ranges
    over is empty. *)
Theorem no_files_no_results (fs : FileSystem) (fp : FileProcessor)
    (ls : list Label) (tr : list Event) (s : State) :
  Files fp = [] ->
  exec fs fp ls (init fp) = Some (tr, s) ->
  enqueued tr = [] /\ dequeued tr = [] /\ received s = [] /\ main_prints s = [].
Proof.
  intros Hf H. apply exec_init_Reach in H.
  pose proof (Reach_paths _ _ _ _ H) as HP.
  apply Reach_Inv in H. destruct H.
  unfold all_jobs in inv_fed0. rewrite Hf in inv_fed0. cbn [fmap list_fmap] in inv_fed0.
  apply app_eq_nil in inv_fed0 as [He _]. rewrite He in inv_queue0.
  apply app_eq_nil in inv_queue0 as [Hd _]. rewrite Hd in HP. cbn [fmap list_fmap] in HP.
  symmetry in HP. apply Permutation_nil_r in HP. apply app_eq_nil in HP as [Hem _].
  apply fmap_nil_inv in Hem.
  assert (Hr : received s = []) by (unfold received; rewrite inv_results0; exact Hem).
  repeat split; try assumption. unfold main_prints. rewrite Hr. reflexivity.
Qed.

Lemma no_files_no_results_witness :
  exists (tr : list Event) (s : State),
    exec sample_fs (NewFileProcessor [] "go" 2) [LMain; LMain; LMain; LMain; LWorker 0; LWorker 1; LMain; LMain]
         (init (NewFileProcessor [] "go" 2)) = Some (tr, s)
    /\ main s = DReturn /\ received s = [].
Proof.
  do 2 eexists. split; [vm_compute; reflexivity|]. split; [reflexivity|].
  destruct (no_files_no_results sample_fs (NewFileProcessor [] "go" 2)
              [LMain; LMain; LMain; LMain; LWorker 0; LWorker 1; LMain; LMain] _ _
              eq_refl ltac:(vm_compute; reflexivity)) as (_ & _ & H & _).
  exact H.
Defined.

(** ** When a worker returns *)

(** X12. While the context is open, a worker returns only on finding the
    job queue closed and empty: if some worker has returned and nothing
    was cancelled, every file has been enqueued, every job has been
    received, and the job queue is closed. *)
Theorem worker_returns_when_drained (fs : FileSystem) (fp : FileProcessor)
    (ls : list Label) (tr : list Event) (s : State) (w : nat) :
  exec fs fp ls (init fp) = Some (tr, s) ->
  cancelled_in tr = false ->
  workers s !! w = Some WDone ->
  closed (jobs s) = true
  /\ buf (jobs s) = []
  /\ dequeued tr = job_of fp <$> Files fp.
Proof.
  intros H Hc Hw. apply exec_init_Reach in H.
  pose proof (Reach_Inv _ _ _ _ H) as HI. destruct HI.
  assert (Hctx : ctx s = None) by (apply inv_ctx0, Hc).
  destruct (Reach_drained fs fp tr s H Hctx (list_elem_of_lookup_2 _ _ _ Hw)) as [Hcl Hb].
  split; [exact Hcl|]. split; [exact Hb|].
  rewrite Hb, app_nil_r in inv_queue0. rewrite inv_queue0.
  rewrite Hcl in inv_jobs_closed0.
  destruct (main s); try discriminate; cbn [to_feed fmap list_fmap] in inv_fed0;
    rewrite app_nil_r in inv_fed0; exact inv_fed0.
Qed.

Lemma worker_returns_when_drained_witness :
  exists (tr : list Event) (s : State),
    exec sample_fs (NewFileProcessor [] "go" 2) [LMain; LMain; LMain; LMain; LWorker 0]
         (init (NewFileProcessor [] "go" 2)) = Some (tr, s)
    /\ workers s = [WDone; WSelect] /\ closed (jobs s) = true.
Proof.
  do 2 eexists. split; [vm_compute; reflexivity|]. split; [reflexivity|].
  destruct (worker_returns_when_drained sample_fs (NewFileProcessor [] "go" 2)
              [LMain; LMain; LMain; LMain; LWorker 0] _ _ 0%nat
              ltac:(vm_compute; reflexivity) eq_refl eq_refl) as (H & _).
  exact H.
Defined.

(** ** The file list of [LoadConfig] *)

Module split_facts.
Import strings.









End split_facts.



(** ** [main], from the configuration to the last line printed *)

(** The labels of a schedule of [main]: it calls [cancel] only on its
    way out ([defer cancel()]), so nothing cancels the context while
    [ProcessFiles] runs. *)
Definition never_cancels (ls : list Label) : bool :=
  forallb (fun l => match l with LCancel _ => false | _ => true end) ls.

(** The part all versions of [main] share: [fp.ProcessFiles(ctx)] under
    the schedule [ls], then the range loop over [fp.Results]; [None] when
    [ls] is not a schedule of [main] up to the return of [ProcessFiles]. *)
Definition process_and_print (fs : FileSystem) (fp : FileProcessor)
    (ls : list Label) : option (list Printed) :=
  if never_cancels ls
  then match exec fs fp ls (init fp) with
       | Some (_, s) =>
           match Pipeline.main s with
           | DReturn => Some (main_prints s)
           | _ => None
           end
       | None => None
       end
  else None.

(** A scheduler with its labels: the first goroutine that can move. *)
Definition next_label (fs : FileSystem) (fp : FileProcessor) (s : State)
    : option Label :=
  snd <$> list_find (fun l => is_Some (step fs fp l s)) (labels s).

Fixpoint schedule (fs : FileSystem) (fp : FileProcessor) (fuel : nat) (s : State)
    : list Label :=
  match fuel with
  | O => []
  | S fuel' =>
      match next_label fs fp s with
      | Some l =>
          match step fs fp l s with
          | Some (_, s') => l :: schedule fs fp fuel' s'
          | None => []
          end
      | None => []
      end
  end.

Module Program.

(** A line of the standard output of [main]. *)
Inductive Line : Type :=
  | ConfigLine (o : Config.Output)
  | ConfigError (err : error)
  | ResultLine (p : Printed).

(** [main] of [main.go], which loads its configuration. *)
Definition main (v : Config.Viper) (fs : FileSystem) (ls : list Label)
    : option (list Line) :=
  let '(out, fp, err) := Config.LoadConfig v in
  match err with
  | Some e => Some ((ConfigLine <$> out) ++ [ConfigError e])%list
  | None =>
      match process_and_print fs fp ls with
      | Some ps => Some ((ConfigLine <$> out) ++ (ResultLine <$> ps))%list
      | None => None
      end
  end.

End Program.

Module ProgramFixed.

(** [main] of the version that builds its processor itself. *)
Definition main (fs : FileSystem) (ls : list Label) : option (list Printed) :=
  process_and_print fs
    (NewFileProcessor ["./file1.txt"; "./file2.txt"; "./file3.txt"] "from" 3) ls.

End ProgramFixed.

Section Printing.
Variable fs : FileSystem.
Variable fp : FileProcessor.

Lemma step_cancel_label (l : Label) (s : State) (e : Event) (s' : State) :
  step fs fp l s = Some (e, s') -> is_cancel e = true ->
  match l with LCancel _ => True | _ => False end.
Proof.
  intros Hs He. destruct l as [|w|w|err]; [| | |exact I];
    unfold Pipeline.step in Hs; destruct (panicked s); try discriminate.
  - unfold step_main in Hs. repeat case_match; simplify_eq; discriminate.
  - unfold step_worker, exit_worker in Hs. repeat case_match; simplify_eq; discriminate.
  - unfold step_worker_done, exit_worker in Hs.
    repeat case_match; simplify_eq; discriminate.
Qed.

Lemma never_cancels_trace (ls : list Label) (s : State) (tr : list Event) (s' : State) :
  never_cancels ls = true -> exec fs fp ls s = Some (tr, s') -> cancelled_in tr = false.
Proof.
  revert s tr. induction ls as [|l ls IH]; intros s tr Hn; cbn [exec].
  - intros [= <- _]. reflexivity.
  - cbn [never_cancels forallb] in Hn. apply andb_true_iff in Hn as [Hl Hn].
    destruct (step fs fp l s) as [[e s1]|] eqn:Hs; [|discriminate].
    destruct (exec fs fp ls s1) as [[tr1 s2]|] eqn:He; [|discriminate].
    intros [= <- <-]. cbn [cancelled_in existsb]. fold (cancelled_in tr1).
    rewrite (IH _ _ Hn He), orb_false_r.
    destruct (is_cancel e) eqn:Ec; [|reflexivity].
    pose proof (step_cancel_label l s e s1 Hs Ec) as Hx. destruct l; try contradiction.
    discriminate.
Qed.

(** What the range loop prints is decided up to the order of the results. *)
Lemma process_and_print_results (ls : list Label) (ps : list Printed) :
  process_and_print fs fp ls = Some ps ->
  exists rs, ps = rs ≫= report
    /\ rs ≡ₚ (if (1 <=? WorkerCount fp)%Z
              then CountWord fs Background <$> (job_of fp <$> Files fp)
              else []).
Proof.
  unfold process_and_print. destruct (never_cancels ls) eqn:Hn; [|discriminate].
  destruct (exec fs fp ls (init fp)) as [[tr s]|] eqn:He; [|discriminate].
  destruct (Pipeline.main s) eqn:Hm; try discriminate. intros [= <-].
  pose proof (never_cancels_trace ls _ _ _ Hn He) as Hc.
  apply exec_init_Reach in He. exists (received s). split; [reflexivity|].
  pose proof (Reach_Inv _ _ _ _ He) as HI. destruct HI.
  destruct (Z.leb_spec 1 (WorkerCount fp)) as [Hw|Hw].
  - apply (returned_results fs fp tr s He Hm); [apply inv_ctx0, Hc|left; exact Hw].
  - pose proof (Reach_pool_empty fs fp tr s He ltac:(lia)) as Hws.
    destruct (Reach_no_workers fs fp tr s He Hws) as [_ Hem].
    unfold received. rewrite inv_results0, Hem. reflexivity.
Qed.

Lemma next_label_Some (s : State) (l : Label) :
  next_label fs fp s = Some l -> l ∈ labels s /\ is_Some (step fs fp l s).
Proof.
  unfold next_label. destruct (list_find _ _) as [[i l']|] eqn:E; [|discriminate].
  cbn. intros [= ->]. apply list_find_Some in E as (Hi & Hp & _).
  split; [eapply list_elem_of_lookup_2, Hi|exact Hp].
Qed.

Lemma next_label_None (s : State) (l : Label) :
  next_label fs fp s = None -> l ∈ labels s -> step fs fp l s = None.
Proof.
  unfold next_label. destruct (list_find _ _) as [[i l']|] eqn:E; [discriminate|].
  intros _ Hl. apply list_find_None in E. rewrite Forall_forall in E.
  specialize (E l Hl). destruct (step fs fp l s); [|reflexivity].
  exfalso. apply E. eexists. reflexivity.
Qed.

Lemma labels_never_cancel (s : State) (l : Label) :
  l ∈ labels s -> match l with LCancel _ => false | _ => true end = true.
Proof.
  intros Hl. unfold labels in Hl. apply elem_of_cons in Hl as [->|Hl]; [reflexivity|].
  apply list_elem_of_bind in Hl as (w & Hl & _).
  apply elem_of_cons in Hl as [->|Hl]; [reflexivity|].
  apply list_elem_of_singleton in Hl. subst l. reflexivity.
Qed.

(** The scheduler takes [ProcessFiles] to its return. *)
Lemma schedule_completes (fuel : nat) (tr : list Event) (s : State) :
  Reach fs fp tr s -> (measure fs fp s <= fuel)%nat ->
  never_cancels (schedule fs fp fuel s) = true
  /\ exists tr' s', exec fs fp (schedule fs fp fuel s) s = Some (tr', s')
                    /\ Pipeline.main s' = DReturn.
Proof.
  revert tr s. induction fuel as [|fuel IH]; intros tr s HR Hm.
  - pose proof (Inv_measure_pos fs fp tr s (Reach_Inv fs fp tr s HR)). lia.
  - cbn [schedule]. destruct (next_label fs fp s) as [l|] eqn:E.
    + apply next_label_Some in E as (Hl & [[e s1] Hs]).
      rewrite Hs. pose proof (Reach_step fs fp _ _ _ _ _ HR Hs) as HR1.
      pose proof (Step_measure fs fp _ _ _ (step_Step fs fp _ _ _ _ Hs)) as Hlt.
      destruct (IH _ _ HR1 ltac:(lia)) as (Hn & tr' & s' & He & Hret).
      split.
      * cbn [never_cancels forallb]. rewrite (labels_never_cancel s l Hl). exact Hn.
      * exists (e :: tr'), s'. cbn [exec]. rewrite Hs, He. split; [reflexivity|exact Hret].
    + split; [reflexivity|]. exists [], s. split; [reflexivity|].
      assert (Pipeline.main s = DReturn \/ Pipeline.main s <> DReturn) as [|Hn]
        by (destruct (Pipeline.main s); auto; right; discriminate); [assumption|].
      destruct (progress fs fp tr s HR Hn) as (l & Hl & [x Hx]).
      rewrite (next_label_None s l E Hl) in Hx. discriminate.
Qed.

Lemma process_and_print_schedule :
  is_Some (process_and_print fs fp
             (schedule fs fp (measure fs fp (init fp)) (init fp))).
Proof.
  destruct (schedule_completes (measure fs fp (init fp)) [] (init fp)
              (Reach_init fs fp) ltac:(lia)) as (Hn & tr & s & He & Hm).
  unfold process_and_print. rewrite Hn, He, Hm. eexists. reflexivity.
Qed.

End Printing.

(** X14. [main] always has a run to its end, and what it prints is the
    same in every run up to the order of the results: the lines of
    [LoadConfig], then for each [Result] its lines, where the results
    are, in some order, those of [CountWord] on each file of the
    configuration under a context never cancelled, or none at all when the
    worker count is 0 or less. *)
Theorem main_output (v : Config.Viper) (fs : FileSystem) :
  is_Some (Program.main v fs
             (schedule fs (snd (fst (Config.LoadConfig v)))
                (measure fs (snd (fst (Config.LoadConfig v)))
                   (init (snd (fst (Config.LoadConfig v)))))
                (init (snd (fst (Config.LoadConfig v))))))
  /\ forall (ls : list Label) (out : list Program.Line),
       Program.main v fs ls = Some out ->
       exists rs : list Result,
         out = ((Program.ConfigLine <$> fst (fst (Config.LoadConfig v)))
                ++ (Program.ResultLine <$> (rs ≫= report)))%list
         /\ rs ≡ₚ (if (1 <=? WorkerCount (snd (fst (Config.LoadConfig v))))%Z
                   then CountWord fs Background
                          <$> (job_of (snd (fst (Config.LoadConfig v)))
                                 <$> Files (snd (fst (Config.LoadConfig v))))
                   else []).
Proof.
  unfold Program.main.
  destruct (Config.LoadConfig v) as [[out0 fp] err] eqn:E.
  assert (err = None) as -> by (unfold Config.LoadConfig in E; congruence).
  cbn [fst snd]. split.
  - destruct (process_and_print_schedule fs fp) as [ps Hps]. rewrite Hps.
    eexists. reflexivity.
  - intros ls out. destruct (process_and_print fs fp ls) as [ps|] eqn:Hp; [|discriminate].
    intros [= <-]. destruct (process_and_print_results fs fp ls ps Hp) as (rs & -> & HP).
    exists rs. split; [reflexivity|exact HP].
Qed.

(** X15. The [main] that builds its processor itself (three files, the
    word "from", three workers) prints in every run, on any file system,
    the lines of three results, one for each of the three files in some
    order, each the [Result] of [CountWord] on that file under a context
    never cancelled: so exactly three count lines, one per file. *)
Theorem main_fixed_output (fs : FileSystem) (ls : list Label) (out : list Printed) :
  ProgramFixed.main fs ls = Some out ->
  (exists rs : list Result,
      out = rs ≫= report
      /\ rs ≡ₚ [CountWord fs Background (mkJob "./file1.txt" "from");
                CountWord fs Background (mkJob "./file2.txt" "from");
                CountWord fs Background (mkJob "./file3.txt" "from")])
  /\ fst <$> processed_lines out ≡ₚ ["./file1.txt"; "./file2.txt"; "./file3.txt"].
Proof.
  unfold ProgramFixed.main. intros H.
  destruct (process_and_print_results fs _ ls out H) as (rs & -> & HP).
  cbn in HP. split; [exists rs; split; [reflexivity|exact HP]|].
  destruct (report_lines rs) as (-> & _ & _).
  rewrite HP. cbn [fmap list_fmap pair_of fst].
  rewrite !CountWord_rFilePath. reflexivity.
Qed.

(** A file system without files, and a schedule of the three workers. *)
Definition no_files : FileSystem :=
  fun path => OpenErr (PathError "open" path "no such file or directory").

Definition fixed_schedule : list Label :=
  (replicate 8 LMain
   ++ [LWorker 2; LWorker 2; LWorker 0; LWorker 0; LWorker 1; LWorker 1;
       LWorker 0; LWorker 1; LWorker 2; LMain; LMain])%list.

Lemma main_fixed_output_witness :
  exists out : list Printed,
    ProgramFixed.main no_files fixed_schedule = Some out
    /\ fst <$> processed_lines out ≡ₚ ["./file1.txt"; "./file2.txt"; "./file3.txt"]
    /\ length out = 6%nat.
Proof.
  eexists. split; [vm_compute; reflexivity|].
  split; [|reflexivity].
  destruct (main_fixed_output no_files fixed_schedule _ ltac:(vm_compute; reflexivity))
    as [_ H].
  exact H.
Defined.
